(** * A shallow embedding of the cafeteria point-of-sale demo

    The browser application is made of six JavaScript modules, each an
    immediately-invoked function closing over private mutable variables:
    [Detection] (classifier glue and the continuous-detection poller),
    [Cart], [Camera], [Stats], [Export] and the coordinating [App].  Each
    module is embedded below as a Rocq module of the same name: the private
    variables become the fields of a state record, every function becomes
    a function on that record, and everything the browser decides (the
    clock, the classifier's output, the answer to a confirm dialog, a
    storage failure) is an explicit argument.

    Conventions of the embedding:
    - JavaScript numbers that hold counts, identifiers and prices are
      integers of [Z]; probabilities, confidences and pixel coordinates are
      exact rationals of [Q].  The overflow of doubles past 2^53 and the
      rounding of binary floating point are not modelled.
    - Strings are byte strings ([string]); [trim] and [toLowerCase] act on
      the ASCII range.
    - DOM rendering ([renderCart], [updateButtons], canvas drawing, alerts and
      console output) has no effect on the modelled state and is left out,
      except where it can throw. *)

From Stdlib Require Import ZArith QArith Lia Bool Ascii String.
From Stdlib Require Import Decimal DecimalFacts DecimalZ Sorted Lqa.
From stdpp Require Import base option list gmap strings.

Local Open Scope string_scope.
Local Open Scope list_scope.
Local Open Scope Z_scope.

Set Warnings "-register-all".

(* ===================================================================== *)
(** * Part I: the model                                                   *)
(* ===================================================================== *)

(** ** Values shared by the modules *)

(** A catalog entry, the object literal stored in [Detection.PRODUCTS]. *)
Record Product : Type := mkProduct {
  p_id : Z;
  p_nameAr : string;
  p_nameEn : string;
  p_price : Z;
  p_modelClass : string
}.

(** The outcome of a JavaScript call: a normal return or a thrown error
    carrying its message. *)
Inductive result (A : Type) : Type :=
  | Ok (a : A)
  | Throw (message : string).
Arguments Ok {A} a.
Arguments Throw {A} message.

(* --------------------------------------------------------------------- *)
(** ** cart.js                                                            *)
(* --------------------------------------------------------------------- *)

Module Cart.

(** The object built by [addItem]. *)
Record CartItem : Type := mkCartItem {
  id : Z;
  productId : Z;
  nameAr : string;
  nameEn : string;
  price : Z;
  confidence : option Q;
  addedAt : string
}.

(** The module's private state: [let items = []; let itemIdCounter = 0]. *)
Record state : Type := mkState {
  items : list CartItem;
  itemIdCounter : Z
}.

Definition initial : state := {| items := []; itemIdCounter := 0 |}.

(** [addItem(product, confidence = null)]; [now] is the value of
    [new Date().toISOString()].  Returns the new item and the state. *)
Definition addItem (product : Product) (conf : option Q) (now : string)
    (s : state) : CartItem * state :=
  let counter := itemIdCounter s + 1 in
  let cartItem := {| id := counter;
                     productId := p_id product;
                     nameAr := p_nameAr product;
                     nameEn := p_nameEn product;
                     price := p_price product;
                     confidence := conf;
                     addedAt := now |} in
  (cartItem, {| items := items s ++ [cartItem]; itemIdCounter := counter |}).

(** [Array.prototype.findIndex]: the first index whose element satisfies
    the predicate; JavaScript's [-1] is [None]. *)
Fixpoint findIndex {A : Type} (f : A -> bool) (l : list A) : option nat :=
  match l with
  | [] => None
  | x :: l' => if f x then Some O else S <$> findIndex f l'
  end.

(** [items.splice(index, 1)] for an index in range: the remaining array. *)
Definition splice1 {A : Type} (index : nat) (l : list A) : list A :=
  delete index l.

(** [removeItem(itemId)]. *)
Definition removeItem (itemId : Z) (s : state) : state :=
  match findIndex (fun item => id item =? itemId) (items s) with
  | Some index =>
      {| items := splice1 index (items s); itemIdCounter := itemIdCounter s |}
  | None => s
  end.

(** [clearCart()]: [items = []]; the counter is left alone. *)
Definition clearCart (s : state) : state :=
  {| items := []; itemIdCounter := itemIdCounter s |}.

(** [getTotal()]: [items.reduce((sum, item) => sum + item.price, 0)]. *)
Definition getTotal (s : state) : Z :=
  fold_left (fun sum item => sum + price item) (items s) 0.

Definition getItemCount (s : state) : nat := length (items s).

(** [getItems()] copies the array; values are immutable here. *)
Definition getItems (s : state) : list CartItem := items s.

Definition isEmpty (s : state) : bool :=
  match items s with [] => true | _ => false end.

(** The object returned by [getOrderData()]. *)
Record OrderData : Type := mkOrderData {
  od_items : list CartItem;
  od_total : Z;
  od_itemsCount : nat
}.

Definition getOrderData (s : state) : OrderData :=
  {| od_items := getItems s;
     od_total := getTotal s;
     od_itemsCount := getItemCount s |}.

(** A call of one of the three mutating entry points of the public API. *)
Inductive op : Type :=
  | AddItem (product : Product) (conf : option Q) (now : string)
  | RemoveItem (itemId : Z)
  | ClearCart.

Definition step (s : state) (o : op) : state :=
  match o with
  | AddItem product conf now => snd (addItem product conf now s)
  | RemoveItem itemId => removeItem itemId s
  | ClearCart => clearCart s
  end.

(** The state after a sequence of calls, oldest first. *)
Definition run (ops : list op) (s : state) : state := fold_left step ops s.

(** The identifiers handed out by the [addItem] calls of a sequence, in
    the order of the calls. *)
Fixpoint issued (ops : list op) (s : state) : list Z :=
  match ops with
  | [] => []
  | o :: ops' =>
      match o with
      | AddItem product conf now =>
          id (fst (addItem product conf now s)) :: issued ops' (step s o)
      | _ => issued ops' (step s o)
      end
  end.

(** The identifier invariant: every item's identifier is at most the
    counter, and no two items share one. *)
Definition ids_ok (s : state) : Prop :=
  Forall (fun it => id it <= itemIdCounter s) (items s)
  /\ NoDup (id <$> items s).

(** The order invariant: identifiers strictly increase along the list
    and lie between 1 and the counter, which is never negative. *)
Definition ordered (s : state) : Prop :=
  StronglySorted Z.lt (id <$> items s)
  /\ Forall (fun it => 1 <= id it <= itemIdCounter s) (items s)
  /\ 0 <= itemIdCounter s.

(** The sum of the prices of a list of items, by recursion on the list
    (the reference against which [getTotal] is compared). *)
Fixpoint sum_prices (l : list CartItem) : Z :=
  match l with
  | [] => 0
  | item :: l' => price item + sum_prices l'
  end.

End Cart.

(* --------------------------------------------------------------------- *)
(** ** Stateful JavaScript code as a state-and-exception monad            *)
(* --------------------------------------------------------------------- *)

(** A function body that reads and writes module variables and may throw
    is a state transformer with three outcomes.  A thrown error keeps the
    state reached so far.  [Unmodelled] marks an execution that leaves the
    fragment of JavaScript embedded here (coercions of [+] on non-numbers,
    JSON text with fractions, exponents or escapes); nothing is claimed
    about such an execution. *)
Inductive outcome (S A : Type) : Type :=
  | Returns (a : A) (s : S)
  | Throws (message : string) (s : S)
  | Unmodelled.
Arguments Returns {S A} a s.
Arguments Throws {S A} message s.
Arguments Unmodelled {S A}.

Definition M (S A : Type) : Type := S -> outcome S A.

Definition ret {S A : Type} (a : A) : M S A := fun s => Returns a s.

Definition bind {S A B : Type} (m : M S A) (k : A -> M S B) : M S B :=
  fun s =>
    match m s with
    | Returns a s' => k a s'
    | Throws msg s' => Throws msg s'
    | Unmodelled => Unmodelled
    end.

Definition throw {S A : Type} (message : string) : M S A :=
  fun s => Throws message s.

Definition unmodelled {S A : Type} : M S A := fun _ => Unmodelled.

(** [try { body } catch (error) { handler }]. *)
Definition try_catch {S A : Type} (body : M S A) (handler : string -> M S A)
    : M S A :=
  fun s =>
    match body s with
    | Returns a s' => Returns a s'
    | Throws msg s' => handler msg s'
    | Unmodelled => Unmodelled
    end.

Definition get_state {S : Type} : M S S := fun s => Returns s s.
Definition put_state {S : Type} (s' : S) : M S unit := fun _ => Returns tt s'.
Definition modify {S : Type} (f : S -> S) : M S unit := fun s => Returns tt (f s).

(** Running the code of one module on its component of a larger state. *)
Definition zoom {S T A : Type} (proj : T -> S) (upd : S -> T -> T)
    (m : M S A) : M T A :=
  fun t =>
    match m (proj t) with
    | Returns a s' => Returns a (upd s' t)
    | Throws msg s' => Throws msg (upd s' t)
    | Unmodelled => Unmodelled
    end.

Declare Scope js_scope.
Delimit Scope js_scope with js.
Notation "'let!' x := m 'in' k" := (bind m (fun x => k))
  (at level 10, x name, m at level 100, k at level 200, only parsing)
  : js_scope.
Notation "m >> k" := (bind m (fun _ => k))
  (at level 100, k at level 200, right associativity, only parsing)
  : js_scope.

(* --------------------------------------------------------------------- *)
(** ** JSON values, [JSON.stringify] and [JSON.parse]                     *)
(* --------------------------------------------------------------------- *)

Module Json.

(** A JSON value.  An object is the list of its properties in insertion
    order, which is the order [JSON.stringify] prints them in. *)
Inductive json : Type :=
  | JNull
  | JBool (b : bool)
  | JNum (n : Z)
  | JStr (s : string)
  | JArr (elems : list json)
  | JObj (fields : list (string * json)).

(** Reading a property of an object: [None] is [undefined]. *)
Fixpoint obj_get (k : string) (fields : list (string * json)) : option json :=
  match fields with
  | [] => None
  | (k', v) :: fields' => if String.eqb k k' then Some v else obj_get k fields'
  end.

(** Writing a property: an existing property keeps its place, a new one
    goes last. *)
Fixpoint obj_set (k : string) (v : json) (fields : list (string * json))
    : list (string * json) :=
  match fields with
  | [] => [(k, v)]
  | (k', v') :: fields' =>
      if String.eqb k k' then (k, v) :: fields'
      else (k', v') :: obj_set k v fields'
  end.

Definition dquote : ascii := "034"%char.
Definition backslash : ascii := "092"%char.

(** *** Printing *)

Fixpoint print_uint (u : uint) : string :=
  match u with
  | Nil => ""
  | D0 u' => String "0" (print_uint u')
  | D1 u' => String "1" (print_uint u')
  | D2 u' => String "2" (print_uint u')
  | D3 u' => String "3" (print_uint u')
  | D4 u' => String "4" (print_uint u')
  | D5 u' => String "5" (print_uint u')
  | D6 u' => String "6" (print_uint u')
  | D7 u' => String "7" (print_uint u')
  | D8 u' => String "8" (print_uint u')
  | D9 u' => String "9" (print_uint u')
  end.

(** The decimal text of an integer, as [Number.prototype.toString] and
    [JSON.stringify] print it. *)
Definition print_Z (n : Z) : string :=
  match Z.to_int n with
  | Pos u => print_uint u
  | Neg u => String "-" (print_uint u)
  end.

(** The control characters, codes 0 to 31: the three high bits are 0. *)
Definition is_control (c : ascii) : bool :=
  match c with
  | Ascii _ _ _ _ _ false false false => true
  | _ => false
  end.

Definition hex_digit (n : N) : ascii :=
  if (n <? 10)%N then ascii_of_N (48 + n) else ascii_of_N (87 + n).

(** The escape of one character inside a quoted string. *)
Definition escape_char (c : ascii) : string :=
  if Ascii.eqb c dquote then String backslash (String dquote "")
  else if Ascii.eqb c backslash then String backslash (String backslash "")
  else if Ascii.eqb c "008" then String backslash "b"
  else if Ascii.eqb c "012" then String backslash "f"
  else if Ascii.eqb c "010" then String backslash "n"
  else if Ascii.eqb c "013" then String backslash "r"
  else if Ascii.eqb c "009" then String backslash "t"
  else if is_control c then
    String backslash
      (String "u" (String "0" (String "0"
        (String (hex_digit (N_of_ascii c / 16))
          (String (hex_digit (N_of_ascii c mod 16)) "")))))
  else String c "".

(** The printers take the text that follows as an argument, so that a
    printed value is laid out from left to right. *)
Fixpoint escape_to (s rest : string) : string :=
  match s with
  | EmptyString => rest
  | String c s' => escape_char c +:+ escape_to s' rest
  end.

Definition quote_to (s rest : string) : string :=
  String dquote (escape_to s (String dquote rest)).

Fixpoint stringify_to (v : json) (rest : string) : string :=
  match v with
  | JNull => "null" +:+ rest
  | JBool true => "true" +:+ rest
  | JBool false => "false" +:+ rest
  | JNum n => print_Z n +:+ rest
  | JStr s => quote_to s rest
  | JArr elems =>
      String "["
        ((fix print_elems (l : list json) : string :=
            match l with
            | [] => String "]" rest
            | x :: l' =>
                match l' with
                | [] => stringify_to x (String "]" rest)
                | _ :: _ => stringify_to x (String "," (print_elems l'))
                end
            end) elems)
  | JObj fields =>
      String "{"
        ((fix print_members (l : list (string * json)) : string :=
            match l with
            | [] => String "}" rest
            | (k, x) :: l' =>
                quote_to k
                  (String ":"
                     (match l' with
                      | [] => stringify_to x (String "}" rest)
                      | _ :: _ => stringify_to x (String "," (print_members l'))
                      end))
            end) fields)
  end.

(** [JSON.stringify(v)] without indentation. *)
Definition stringify (v : json) : string := stringify_to v "".

(** *** Parsing *)

(** The result of a parsing function: a value with the rest of the
    input, a [SyntaxError], or text outside the fragment read here. *)
Inductive presult (A : Type) : Type :=
  | POk (a : A) (rest : string)
  | PSyntax
  | PUnsupported.
Arguments POk {A} a rest.
Arguments PSyntax {A}.
Arguments PUnsupported {A}.

(** JSON white space: space, tab, line feed, carriage return. *)
Definition is_ws (c : ascii) : bool :=
  Ascii.eqb c " " || Ascii.eqb c "009" || Ascii.eqb c "010" || Ascii.eqb c "013".

Fixpoint skip_ws (s : string) : string :=
  match s with
  | String c s' => if is_ws c then skip_ws s' else s
  | EmptyString => s
  end.

Definition digit_cons (c : ascii) : option (uint -> uint) :=
  if Ascii.eqb c "0" then Some D0
  else if Ascii.eqb c "1" then Some D1
  else if Ascii.eqb c "2" then Some D2
  else if Ascii.eqb c "3" then Some D3
  else if Ascii.eqb c "4" then Some D4
  else if Ascii.eqb c "5" then Some D5
  else if Ascii.eqb c "6" then Some D6
  else if Ascii.eqb c "7" then Some D7
  else if Ascii.eqb c "8" then Some D8
  else if Ascii.eqb c "9" then Some D9
  else None.

(** The longest prefix of decimal digits. *)
Fixpoint parse_digits (s : string) : uint * string :=
  match s with
  | String c s' =>
      match digit_cons c with
      | Some d => let (u, rest) := parse_digits s' in (d u, rest)
      | None => (Nil, s)
      end
  | EmptyString => (Nil, s)
  end.

(** Whether the text goes on with a fraction or an exponent. *)
Definition continues_number (s : string) : bool :=
  match s with
  | String c _ => Ascii.eqb c "." || Ascii.eqb c "e" || Ascii.eqb c "E"
  | EmptyString => false
  end.

(** The digits of a number after its sign: at least one digit, and no
    leading zero before another digit. *)
Definition parse_unsigned (s : string) : presult Z :=
  let (u, rest) := parse_digits s in
  match u with
  | Nil => PSyntax
  | D0 (D0 _ | D1 _ | D2 _ | D3 _ | D4 _ | D5 _ | D6 _ | D7 _ | D8 _ | D9 _) =>
      PSyntax
  | _ =>
      if continues_number rest then PUnsupported
      else POk (Z.of_uint u) rest
  end.

Definition parse_number (s : string) : presult Z :=
  match s with
  | String "-" s' =>
      match parse_unsigned s' with
      | POk n rest => POk (- n) rest
      | PSyntax => PSyntax
      | PUnsupported => PUnsupported
      end
  | _ => parse_unsigned s
  end.

(** The characters of a string literal after its opening quote. *)
Fixpoint parse_chars (s : string) : presult string :=
  match s with
  | EmptyString => PSyntax
  | String c s' =>
      if Ascii.eqb c dquote then POk "" s'
      else if Ascii.eqb c backslash then PUnsupported
      else if is_control c then PSyntax
      else
        match parse_chars s' with
        | POk str rest => POk (String c str) rest
        | PSyntax => PSyntax
        | PUnsupported => PUnsupported
        end
  end.

(** [s] without the prefix [p], when it has it. *)
Fixpoint strip_prefix (p s : string) : option string :=
  match p with
  | EmptyString => Some s
  | String a p' =>
      match s with
      | String b s' => if Ascii.eqb a b then strip_prefix p' s' else None
      | EmptyString => None
      end
  end.

Definition parse_literal (lit : string) (v : json) (s : string) : presult json :=
  match strip_prefix lit s with
  | Some rest => POk v rest
  | None => PSyntax
  end.

(** A property name made of digits only is an array index, which an
    object enumerates before its other properties; objects with such
    names are not read here. *)
Fixpoint all_digits (s : string) : bool :=
  match s with
  | EmptyString => true
  | String c s' =>
      match digit_cons c with Some _ => all_digits s' | None => false end
  end.

(** One JSON value, by recursive descent.  The fuel bounds the depth of
    the descent (one unit per nested value and per member of an object
    or array); [JSON_parse] supplies the length of the text. *)
Fixpoint parse_value (fuel : nat) (s : string) {struct fuel} : presult json :=
  match fuel with
  | O => PUnsupported
  | S fuel' =>
      match skip_ws s with
      | EmptyString => PSyntax
      | String c s' =>
          if Ascii.eqb c "{" then
            match skip_ws s' with
            | String "}" rest => POk (JObj []) rest
            | s'' => parse_members fuel' s'' []
            end
          else if Ascii.eqb c "[" then
            match skip_ws s' with
            | String "]" rest => POk (JArr []) rest
            | s'' => parse_elements fuel' s'' []
            end
          else if Ascii.eqb c dquote then
            match parse_chars s' with
            | POk str rest => POk (JStr str) rest
            | PSyntax => PSyntax
            | PUnsupported => PUnsupported
            end
          else if Ascii.eqb c "t" then parse_literal "true" (JBool true) (String c s')
          else if Ascii.eqb c "f" then parse_literal "false" (JBool false) (String c s')
          else if Ascii.eqb c "n" then parse_literal "null" JNull (String c s')
          else
            match parse_number (String c s') with
            | POk n rest => POk (JNum n) rest
            | PSyntax => PSyntax
            | PUnsupported => PUnsupported
            end
      end
  end

(** The members of an object after [{] or [,], white space skipped. *)
with parse_members (fuel : nat) (s : string) (acc : list (string * json))
    {struct fuel} : presult json :=
  match fuel with
  | O => PUnsupported
  | S fuel' =>
      match s with
      | String c s1 =>
          if Ascii.eqb c dquote then
            match parse_chars s1 with
            | POk k s2 =>
                match skip_ws s2 with
                | String ":" s3 =>
                    match parse_value fuel' s3 with
                    | POk v s4 =>
                        if all_digits k then PUnsupported
                        else
                          match skip_ws s4 with
                          | String "," s5 =>
                              parse_members fuel' (skip_ws s5) (obj_set k v acc)
                          | String "}" s5 => POk (JObj (obj_set k v acc)) s5
                          | _ => PSyntax
                          end
                    | PSyntax => PSyntax
                    | PUnsupported => PUnsupported
                    end
                | _ => PSyntax
                end
            | PSyntax => PSyntax
            | PUnsupported => PUnsupported
            end
          else PSyntax
      | EmptyString => PSyntax
      end
  end

(** The elements of an array after [[] or [,]. *)
with parse_elements (fuel : nat) (s : string) (acc : list json)
    {struct fuel} : presult json :=
  match fuel with
  | O => PUnsupported
  | S fuel' =>
      match parse_value fuel' s with
      | POk v s1 =>
          match skip_ws s1 with
          | String "," s2 => parse_elements fuel' s2 (acc ++ [v])
          | String "]" s2 => POk (JArr (acc ++ [v])) s2
          | _ => PSyntax
          end
      | PSyntax => PSyntax
      | PUnsupported => PUnsupported
      end
  end.

(** A numeral as [parse_unsigned] accepts it: at least one digit, and a
    leading zero only when it stands alone. *)
Definition canonical (u : uint) : Prop :=
  match u with
  | Nil => False
  | D0 Nil => True
  | D0 _ => False
  | _ => True
  end.

(** The text does not go on with a character a number could absorb. *)
Definition ends_number (rest : string) : Prop :=
  match rest with
  | EmptyString => True
  | String c _ => digit_cons c = None /\ continues_number rest = false
  end.

(** The characters a number can begin with. *)
Definition number_start (c : ascii) : bool :=
  Ascii.eqb c "-" || bool_decide (is_Some (digit_cons c)).

(** The three results of [JSON.parse(text)]. *)
Inductive parsed : Type :=
  | Parsed (v : json)
  | SyntaxError
  | Unsupported.

(** [JSON.parse(text)]: one value, with nothing but white space after it. *)
Definition JSON_parse (text : string) : parsed :=
  match parse_value (S (String.length text)) text with
  | POk v rest =>
      match skip_ws rest with
      | EmptyString => Parsed v
      | String _ _ => SyntaxError
      end
  | PSyntax => SyntaxError
  | PUnsupported => Unsupported
  end.

End Json.


(* --------------------------------------------------------------------- *)
(** ** stats.js                                                           *)
(* --------------------------------------------------------------------- *)

Module Stats.
Import Json.
Local Open Scope js_scope.

(** The browser's [localStorage]: its key/value contents, and whether the
    browser lets the page read and write it (a disabled or full storage
    makes [getItem] or [setItem] throw). *)
Record LocalStorage : Type := mkLocalStorage {
  contents : gmap string string;
  readable : bool;
  writable : bool
}.

(** The module variable [stats] together with the storage it persists to. *)
Record world : Type := mkWorld {
  stats : json;
  localStorage : LocalStorage
}.

Definition STORAGE_KEY : string := "pos_stats".

(** The object literal [{ itemsScanned: a, ordersCompleted: b, totalRevenue: c }]. *)
Definition record (a b c : Z) : json :=
  JObj [("itemsScanned", JNum a); ("ordersCompleted", JNum b);
        ("totalRevenue", JNum c)].

(** The text [JSON.stringify] gives for such an object, in terms of the
    texts [x], [y], [z] of its three numbers. *)
Definition field_text (key rest : string) : string :=
  String dquote (key +:+ String dquote (String ":" rest)).

Definition record_text (x y z : string) : string :=
  String "{"
    (field_text "itemsScanned"
       (x +:+ String ","
          (field_text "ordersCompleted"
             (y +:+ String ","
                (field_text "totalRevenue" (z +:+ "}")))))).

(** The initial value of [stats], also assigned by [resetStats]. *)
Definition defaults : json := record 0 0 0.

(** The module as evaluated at page load, over a given storage. *)
Definition boot (ls : LocalStorage) : world :=
  {| stats := defaults; localStorage := ls |}.

Definition set_stats (v : json) : M world unit :=
  modify (fun w => {| stats := v; localStorage := localStorage w |}).

(** [localStorage.getItem(key)]: [None] is [null]. *)
Definition getItem (key : string) : M world (option string) :=
  fun w =>
    if readable (localStorage w)
    then Returns (contents (localStorage w) !! key) w
    else Throws "SecurityError" w.

(** [localStorage.setItem(key, value)]. *)
Definition setItem (key value : string) : M world unit :=
  fun w =>
    if writable (localStorage w)
    then Returns tt
           {| stats := stats w;
              localStorage :=
                {| contents := <[key := value]> (contents (localStorage w));
                   readable := readable (localStorage w);
                   writable := writable (localStorage w) |} |}
    else Throws "QuotaExceededError" w.

Definition JSON_parse_m (text : string) : M world json :=
  match JSON_parse text with
  | Parsed v => ret v
  | SyntaxError => throw "SyntaxError"
  | Unsupported => unmodelled
  end.

(** The property read [v.key]: [None] is [undefined]; reading a property
    of [null] throws. *)
Definition read_prop (key : string) (v : json) : M world (option json) :=
  match v with
  | JNull => throw "TypeError"
  | JObj fields => ret (obj_get key fields)
  | _ => ret None
  end.

(** [stats.key += n] for an object whose property holds a number. *)
Definition add_assign (key : string) (n : Z) : M world unit :=
  let! w := get_state in
  let! old := read_prop key (stats w) in
  match stats w, old with
  | JObj fields, Some (JNum a) => set_stats (JObj (obj_set key (JNum (a + n)) fields))
  | _, _ => unmodelled
  end.

(** [v.toLocaleString()]: a method call on [undefined] or [null] throws. *)
Definition toLocaleString (v : option json) : M world unit :=
  match v with
  | None | Some JNull => throw "TypeError"
  | Some _ => ret tt
  end.

(** [updateDisplay()]: the three reads of [stats] that feed the page. *)
Definition updateDisplay : M world unit :=
  let! w := get_state in
  let! _ := read_prop "itemsScanned" (stats w) in
  let! _ := read_prop "ordersCompleted" (stats w) in
  let! revenue := read_prop "totalRevenue" (stats w) in
  toLocaleString revenue.

(** [loadStats()]. *)
Definition loadStats : M world unit :=
  try_catch
    (let! stored := getItem STORAGE_KEY in
     match stored with
     | Some (String c text) =>
         let! v := JSON_parse_m (String c text) in
         set_stats v
     | Some EmptyString | None => ret tt
     end)
    (fun _ => ret tt).

(** [saveStats()]. *)
Definition saveStats : M world unit :=
  try_catch
    (let! w := get_state in
     setItem STORAGE_KEY (stringify (stats w)))
    (fun _ => ret tt).

Definition init : M world unit :=
  loadStats >> updateDisplay.

Definition incrementItemsScanned (count : Z) : M world unit :=
  add_assign "itemsScanned" count >> saveStats >> updateDisplay.

Definition incrementOrders : M world unit :=
  add_assign "ordersCompleted" 1 >> saveStats >> updateDisplay.

Definition addRevenue (amount : Z) : M world unit :=
  add_assign "totalRevenue" amount >> saveStats >> updateDisplay.

Definition resetStats : M world unit :=
  set_stats defaults >> saveStats >> updateDisplay.

(** The three counters of a stats object whose counters are numbers. *)
Definition counter (key : string) (v : json) : option Z :=
  match v with
  | JObj fields =>
      match obj_get key fields with
      | Some (JNum n) => Some n
      | _ => None
      end
  | _ => None
  end.

Definition itemsScanned (w : world) : option Z := counter "itemsScanned" (stats w).
Definition ordersCompleted (w : world) : option Z := counter "ordersCompleted" (stats w).
Definition totalRevenue (w : world) : option Z := counter "totalRevenue" (stats w).

(** What can happen to the module between two observations: a call of
    the public API, a change of what the browser allows on the storage,
    or a restart of the page (the module variable is initialised afresh,
    the storage stays). *)
Inductive op : Type :=
  | Init
  | IncrementItemsScanned (count : Z)
  | IncrementOrders
  | AddRevenue (amount : Z)
  | ResetStats
  | StorageAccess (can_read can_write : bool)
  | Restart.

Definition after {A : Type} (o : outcome world A) : option world :=
  match o with
  | Returns _ w | Throws _ w => Some w
  | Unmodelled => None
  end.

Definition step (w : world) (o : op) : option world :=
  match o with
  | Init => after (init w)
  | IncrementItemsScanned count => after (incrementItemsScanned count w)
  | IncrementOrders => after (incrementOrders w)
  | AddRevenue amount => after (addRevenue amount w)
  | ResetStats => after (resetStats w)
  | StorageAccess r wr =>
      Some {| stats := stats w;
              localStorage := {| contents := contents (localStorage w);
                                 readable := r; writable := wr |} |}
  | Restart => Some (boot (localStorage w))
  end.

Fixpoint run (ops : list op) (w : world) : option world :=
  match ops with
  | [] => Some w
  | o :: ops' =>
      match step w o with
      | Some w' => run ops' w'
      | None => None
      end
  end.

(** The storage after [setItem(STORAGE_KEY, text)] went through. *)
Definition written (text : string) (ls : LocalStorage) : LocalStorage :=
  {| contents := <[STORAGE_KEY := text]> (contents ls);
     readable := readable ls;
     writable := writable ls |}.

(** The world with [stats] holding [v] after the [saveStats()] that
    follows every mutation: the snapshot is written when the storage
    takes it, and the failure is swallowed when it does not. *)
Definition saved (v : json) (ls : LocalStorage) : world :=
  {| stats := v;
     localStorage := if writable ls then written (stringify v) ls else ls |}.

(** The stored snapshot, if any, is one the module wrote. *)
Definition stored_ok (ls : LocalStorage) : Prop :=
  contents ls !! STORAGE_KEY = None
  \/ exists a b c, contents ls !! STORAGE_KEY = Some (stringify (record a b c)).

(** The invariant of the reachable worlds: [stats] is an object with
    its three integer counters, and so is what the storage holds. *)
Definition well_formed (w : world) : Prop :=
  (exists a b c, stats w = record a b c) /\ stored_ok (localStorage w).

(** A storage in which the application's key has never been written. *)
Definition fresh (ls : LocalStorage) : Prop :=
  contents ls !! STORAGE_KEY = None.

(** The worlds the public operations lead to from a first start. *)
Definition reachable (w : world) : Prop :=
  exists ls ops, fresh ls /\ run ops (boot ls) = Some w.

(** The ways [loadStats()] ends without a value to assign: the storage
    cannot be read, the key is missing or empty, or its text is not JSON. *)
Definition absent_or_unparseable (ls : LocalStorage) : Prop :=
  readable ls = false
  \/ contents ls !! STORAGE_KEY = None
  \/ contents ls !! STORAGE_KEY = Some ""
  \/ exists text, contents ls !! STORAGE_KEY = Some text
                  /\ JSON_parse text = SyntaxError.

(** The calls that add to a counter, and changes of storage access. *)
Definition is_increment (o : op) : bool :=
  match o with
  | IncrementItemsScanned _ | IncrementOrders | AddRevenue _
  | StorageAccess _ _ => true
  | _ => false
  end.

(** The calls that assign to [stats] and save it. *)
Definition is_mutation (o : op) : bool :=
  match o with
  | IncrementItemsScanned _ | IncrementOrders | AddRevenue _ | ResetStats => true
  | _ => false
  end.

(** What a sequence of calls adds to each counter. *)
Fixpoint scanned_sum (ops : list op) : Z :=
  match ops with
  | [] => 0
  | IncrementItemsScanned count :: ops' => count + scanned_sum ops'
  | _ :: ops' => scanned_sum ops'
  end.

Fixpoint orders_count (ops : list op) : Z :=
  match ops with
  | [] => 0
  | IncrementOrders :: ops' => 1 + orders_count ops'
  | _ :: ops' => orders_count ops'
  end.

Fixpoint revenue_sum (ops : list op) : Z :=
  match ops with
  | [] => 0
  | AddRevenue amount :: ops' => amount + revenue_sum ops'
  | _ :: ops' => revenue_sum ops'
  end.

(** Two storages that differ at most in the application's key. *)
Definition same_elsewhere (ls ls' : LocalStorage) : Prop :=
  readable ls' = readable ls /\ writable ls' = writable ls
  /\ forall key, key <> STORAGE_KEY -> contents ls' !! key = contents ls !! key.

(** A computation that leaves the rest of the storage alone, however it
    ends. *)
Definition local {A : Type} (m : M world A) : Prop :=
  forall w,
    match m w with
    | Returns _ w' | Throws _ w' =>
        same_elsewhere (localStorage w) (localStorage w')
    | Unmodelled => True
    end.

(** The call of the public API an operation stands for; a change of
    storage access and a restart are not calls. *)
Definition call (o : op) : option (M world unit) :=
  match o with
  | Init => Some init
  | IncrementItemsScanned count => Some (incrementItemsScanned count)
  | IncrementOrders => Some incrementOrders
  | AddRevenue amount => Some (addRevenue amount)
  | ResetStats => Some resetStats
  | StorageAccess _ _ | Restart => None
  end.

End Stats.

(* --------------------------------------------------------------------- *)
(** ** The detection module (classifier glue and poller)                  *)
(* --------------------------------------------------------------------- *)

Module Detection.

(** *** Product catalog *)

Definition coffee : Product :=
  {| p_id := 1; p_nameAr := "قهوة"; p_nameEn := "Coffee";
     p_price := 100; p_modelClass := "caffee" |}.

Definition water : Product :=
  {| p_id := 2; p_nameAr := "ماء"; p_nameEn := "Water";
     p_price := 30; p_modelClass := "water" |}.

Definition PRODUCTS : list Product := [coffee; water].

Definition MIN_CONFIDENCE : Q := 1 # 2.

(** *** [String.prototype.trim] and [toLowerCase] on ASCII *)

Definition is_space (c : ascii) : bool :=
  let n := N_of_ascii c in
  ((n =? 32) || ((9 <=? n) && (n <=? 13)))%N.

Fixpoint trimStart (s : string) : string :=
  match s with
  | String c s' => if is_space c then trimStart s' else s
  | EmptyString => s
  end.

Fixpoint trimEnd (s : string) : string :=
  match s with
  | EmptyString => EmptyString
  | String c s' =>
      match trimEnd s' with
      | EmptyString => if is_space c then EmptyString else String c EmptyString
      | String d t => String c (String d t)
      end
  end.

Definition trim (s : string) : string := trimEnd (trimStart s).

Definition lower_char (c : ascii) : ascii :=
  let n := N_of_ascii c in
  if ((65 <=? n) && (n <=? 90))%N then ascii_of_N (n + 32) else c.

Fixpoint toLowerCase (s : string) : string :=
  match s with
  | EmptyString => EmptyString
  | String c s' => String (lower_char c) (toLowerCase s')
  end.

(** [mapClassToProduct(className)]: [None] is [null]. *)
Definition mapClassToProduct (className : string) : option Product :=
  let cleanName := toLowerCase (trim className) in
  List.find
    (fun p => String.eqb (toLowerCase (trim (p_modelClass p))) cleanName)
    PRODUCTS.

(** *** Model state *)

(** A loaded [tf.LayersModel]; what it predicts is supplied by the
    environment with each frame. *)
Inductive Model : Type := LayersModel.

(** The identity of a callback function passed to the poller. *)
Definition Callback : Type := nat.

(** What [detectObjects] reads of the [<video>] element. *)
Record VideoElement : Type := mkVideo {
  readyState : Z;
  videoWidth : Z;
  videoHeight : Z
}.

Record BoundingBox : Type := mkBox {
  box_x : Q;
  box_y : Q;
  box_width : Q;
  box_height : Q
}.

(** One element of the array returned by [detectObjects]. *)
Record DetectionResult : Type := mkDetection {
  product : Product;
  className : string;
  confidence : Q;
  displayName : string;
  boundingBox : BoundingBox
}.

(** The module variables, followed by the part of the browser's event
    loop the poller lives in and by two observation logs. *)
Record state : Type := mkState {
  model : option Model;
  modelLoading : bool;
  modelLoaded : bool;
  continuousDetectionId : option Z;
  continuousDetectionCallback : option Callback;
  (** pending [setTimeout(detectFrame, interval)] handles *)
  timers : list Z;
  (** the handle the next [setTimeout] returns; handles are positive *)
  next_timer : Z;
  (** activations of [detectFrame] suspended at [await detectObjects(..)],
      each with the video element it was called on *)
  inflight : list VideoElement;
  (** every call of a callback, with its argument, oldest first *)
  invocations : list (Callback * list DetectionResult);
  (** the number of detection cycles started so far *)
  cycles : nat
}.

Definition initial : state :=
  {| model := None; modelLoading := false; modelLoaded := false;
     continuousDetectionId := None; continuousDetectionCallback := None;
     timers := []; next_timer := 1; inflight := [];
     invocations := []; cycles := O |}.

(** *** Model loading *)

(** What a call of [loadModel()] does before it returns or suspends:
    [Some r] when the call completes at once, [None] when it is left
    waiting for [tf.loadLayersModel]. *)
Definition loadModel_call (tf_defined : bool) (st : state)
    : option (result bool) * state :=
  if modelLoaded st then (Some (Ok true), st)
  else if modelLoading st then (Some (Ok false), st)
  else if tf_defined then
    (None,
     {| model := model st; modelLoading := true; modelLoaded := modelLoaded st;
        continuousDetectionId := continuousDetectionId st;
        continuousDetectionCallback := continuousDetectionCallback st;
        timers := timers st; next_timer := next_timer st;
        inflight := inflight st; invocations := invocations st;
        cycles := cycles st |})
  else
    (Some (Throw "TensorFlow.js not loaded"),
     {| model := model st; modelLoading := false; modelLoaded := modelLoaded st;
        continuousDetectionId := continuousDetectionId st;
        continuousDetectionCallback := continuousDetectionCallback st;
        timers := timers st; next_timer := next_timer st;
        inflight := inflight st; invocations := invocations st;
        cycles := cycles st |}).

(** The waiting call resumes with the loaded model. *)
Definition loadModel_resolved (m : Model) (st : state) : state :=
  if modelLoading st then
    {| model := Some m; modelLoading := false; modelLoaded := true;
       continuousDetectionId := continuousDetectionId st;
       continuousDetectionCallback := continuousDetectionCallback st;
       timers := timers st; next_timer := next_timer st;
       inflight := inflight st; invocations := invocations st;
       cycles := cycles st |}
  else st.

(** The waiting call resumes with a failure, which it rethrows. *)
Definition loadModel_rejected (st : state) : state :=
  if modelLoading st then
    {| model := model st; modelLoading := false; modelLoaded := modelLoaded st;
       continuousDetectionId := continuousDetectionId st;
       continuousDetectionCallback := continuousDetectionCallback st;
       timers := timers st; next_timer := next_timer st;
       inflight := inflight st; invocations := invocations st;
       cycles := cycles st |}
  else st.

Definition isModelLoaded (st : state) : bool := modelLoaded st.

(** *** [detectObjects] *)

(** What the classifier run inside the [try] block produced: the
    probability vector read from the prediction, or an exception thrown
    by preprocessing, prediction, read-back or disposal. *)
Inductive inference : Type :=
  | Probabilities (probabilities : list Q)
  | InferenceError (message : string).

Definition Qltb (x y : Q) : bool := negb (Qle_bool y x).

(** The loop over [probabilities]: position [i], running maximum
    [maxProb] found at [maxIndex]. *)
Fixpoint argmax_from (probabilities : list Q) (i : nat) (maxProb : Q)
    (maxIndex : nat) : Q * nat :=
  match probabilities with
  | [] => (maxProb, maxIndex)
  | p :: rest =>
      if Qltb maxProb p then argmax_from rest (S i) p i
      else argmax_from rest (S i) maxProb maxIndex
  end.

Definition argmax (probabilities : list Q) : Q * nat :=
  argmax_from probabilities O 0%Q O.

Definition classNames : list string := ["caffee"; "water"; "empty"].

(** [classNames[maxIndex] || 'unknown']. *)
Definition class_of (maxIndex : nat) : string :=
  nth maxIndex classNames "unknown".

(** The winning label and its confidence. *)
Definition winner (probabilities : list Q) : string * Q :=
  let (maxProb, maxIndex) := argmax probabilities in
  (class_of maxIndex, maxProb).

(** [x || fallback] on a number. *)
Definition or_default (x fallback : Z) : Z := if x =? 0 then fallback else x.

(** The cosmetic box: a square of 60% of the shorter side, centred.
    It is computed here in the rationals.  The code computes in double
    precision, which gives the same values when the shorter side is a
    multiple of five (the product by 0.6 is then an integer) and values
    within rounding of them otherwise. *)
Definition box_for (v : VideoElement) : BoundingBox :=
  let videoWidth := or_default (videoWidth v) 640 in
  let videoHeight := or_default (videoHeight v) 480 in
  let boxSize := Qred (inject_Z (Z.min videoWidth videoHeight) * (6 # 10)) in
  let boxX := Qred ((inject_Z videoWidth - boxSize) / 2) in
  let boxY := Qred ((inject_Z videoHeight - boxSize) / 2) in
  {| box_x := boxX; box_y := boxY; box_width := boxSize; box_height := boxSize |}.

(** The part of [detectObjects] after the probabilities are known. *)
Definition classify (v : VideoElement) (probabilities : list Q)
    : list DetectionResult :=
  let (className, confidence) := winner probabilities in
  if Qltb confidence MIN_CONFIDENCE then []
  else if String.eqb className "empty" then []
  else
    match mapClassToProduct className with
    | Some product =>
        [ {| product := product;
             className := className;
             confidence := confidence;
             displayName := p_nameAr product +:+ " / " +:+ p_nameEn product;
             boundingBox := box_for v |} ]
    | None => []
    end.

(** [detectObjects(videoElement)]; [None] is a missing element. *)
Definition detectObjects (st : state) (videoElement : option VideoElement)
    (inf : inference) : result (list DetectionResult) :=
  if negb (modelLoaded st) || negb (bool_decide (is_Some (model st))) then
    Throw "Model not loaded"
  else
    match videoElement with
    | None => Ok []
    | Some v =>
        if readyState v <? 2 then Ok []
        else
          match inf with
          | Probabilities probabilities => Ok (classify v probabilities)
          | InferenceError _ => Ok []
          end
    end.

(** *** Continuous detection *)

(** [setTimeout(detectFrame, interval)] followed by the assignment of
    its handle to [continuousDetectionId]. *)
Definition schedule (st : state) : state :=
  {| model := model st; modelLoading := modelLoading st;
     modelLoaded := modelLoaded st;
     continuousDetectionId := Some (next_timer st);
     continuousDetectionCallback := continuousDetectionCallback st;
     timers := timers st ++ [next_timer st];
     next_timer := next_timer st + 1;
     inflight := inflight st; invocations := invocations st;
     cycles := cycles st |}.

(** A call of [detectFrame] up to its first suspension.  With a video
    element it calls [detectObjects] and waits; without one it goes
    straight to rescheduling. *)
Definition detectFrame (videoElement : option VideoElement) (st : state)
    : state :=
  match videoElement with
  | Some v =>
      {| model := model st; modelLoading := modelLoading st;
         modelLoaded := modelLoaded st;
         continuousDetectionId := continuousDetectionId st;
         continuousDetectionCallback := continuousDetectionCallback st;
         timers := timers st; next_timer := next_timer st;
         inflight := inflight st ++ [v];
         invocations := invocations st;
         cycles := S (cycles st) |}
  | None => schedule st
  end.

(** The rest of [detectFrame] once the awaited [detectObjects] of the
    [k]-th suspended activation has settled.  [detectObjects] is evaluated
    here as a whole: its guard on the model, which the source tests when
    the call is made, answers the same at both moments, since the poller
    only starts with the model loaded and a loaded model is never
    unloaded.  A rejected call ends the activation without a callback and
    without a new timer. *)
Definition detectFrame_resume (k : nat) (inf : inference) (st : state)
    : state :=
  match inflight st !! k with
  | None => st
  | Some v =>
      let st1 :=
        {| model := model st; modelLoading := modelLoading st;
           modelLoaded := modelLoaded st;
           continuousDetectionId := continuousDetectionId st;
           continuousDetectionCallback := continuousDetectionCallback st;
           timers := timers st; next_timer := next_timer st;
           inflight := delete k (inflight st);
           invocations := invocations st;
           cycles := cycles st |} in
      match detectObjects st1 (Some v) inf with
      | Throw _ => st1
      | Ok detections =>
          let st2 :=
            match continuousDetectionCallback st1 with
            | Some callback =>
                {| model := model st1; modelLoading := modelLoading st1;
                   modelLoaded := modelLoaded st1;
                   continuousDetectionId := continuousDetectionId st1;
                   continuousDetectionCallback := continuousDetectionCallback st1;
                   timers := timers st1; next_timer := next_timer st1;
                   inflight := inflight st1;
                   invocations := invocations st1 ++ [(callback, detections)];
                   cycles := cycles st1 |}
            | None => st1
            end in
          schedule st2
      end
  end.

(** A JavaScript truthiness test on a timer handle or [null]. *)
Definition truthy (handle : option Z) : bool :=
  match handle with
  | Some t => negb (t =? 0)
  | None => false
  end.

(** [startContinuousDetection(callback, interval)]. *)
Definition startContinuousDetection (callback : Callback)
    (videoElement : option VideoElement) (st : state) : state :=
  if truthy (continuousDetectionId st) then st
  else if negb (modelLoaded st) then st
  else
    detectFrame videoElement
      {| model := model st; modelLoading := modelLoading st;
         modelLoaded := modelLoaded st;
         continuousDetectionId := continuousDetectionId st;
         continuousDetectionCallback := Some callback;
         timers := timers st; next_timer := next_timer st;
         inflight := inflight st; invocations := invocations st;
         cycles := cycles st |}.

(** [stopContinuousDetection()]. *)
Definition stopContinuousDetection (st : state) : state :=
  match continuousDetectionId st with
  | Some t =>
      if negb (t =? 0) then
        {| model := model st; modelLoading := modelLoading st;
           modelLoaded := modelLoaded st;
           continuousDetectionId := None;
           continuousDetectionCallback := None;
           timers := List.filter (fun t' => negb (t' =? t)) (timers st);
           next_timer := next_timer st;
           inflight := inflight st; invocations := invocations st;
           cycles := cycles st |}
      else st
  | None => st
  end.

(** [isContinuousDetectionRunning()]: [continuousDetectionId !== null]. *)
Definition isContinuousDetectionRunning (st : state) : bool :=
  bool_decide (is_Some (continuousDetectionId st)).

(** A pending timer fires and calls [detectFrame]. *)
Definition timer_fires (t : Z) (videoElement : option VideoElement)
    (st : state) : state :=
  if bool_decide (t ∈ timers st) then
    detectFrame videoElement
      {| model := model st; modelLoading := modelLoading st;
         modelLoaded := modelLoaded st;
         continuousDetectionId := continuousDetectionId st;
         continuousDetectionCallback := continuousDetectionCallback st;
         timers := List.filter (fun t' => negb (t' =? t)) (timers st);
         next_timer := next_timer st;
         inflight := inflight st; invocations := invocations st;
         cycles := cycles st |}
  else st.

(** The events the module reacts to.  A video argument is what
    [document.getElementById('videoFeed')] yields at that moment.  Time is
    not measured: a pending timer may fire, and an awaited detection may
    settle, at any later moment. *)
Inductive event : Type :=
  | LoadModel (tf_defined : bool)
  | LoadResolved
  | LoadRejected
  | Start (callback : Callback) (videoElement : option VideoElement)
  | Stop
  | TimerFires (t : Z) (videoElement : option VideoElement)
  | DetectionSettles (k : nat) (inf : inference).

Definition step (st : state) (e : event) : state :=
  match e with
  | LoadModel tf_defined => snd (loadModel_call tf_defined st)
  | LoadResolved => loadModel_resolved LayersModel st
  | LoadRejected => loadModel_rejected st
  | Start callback videoElement => startContinuousDetection callback videoElement st
  | Stop => stopContinuousDetection st
  | TimerFires t videoElement => timer_fires t videoElement st
  | DetectionSettles k inf => detectFrame_resume k inf st
  end.

Definition run (events : list event) (st : state) : state :=
  fold_left step events st.

(** Events other than a call of [startContinuousDetection]. *)
Definition not_start (e : event) : bool :=
  match e with
  | Start _ _ => false
  | _ => true
  end.

(** What the event loop does on its own once the poller is set up:
    timers fire and awaited detections settle; [Stop] may be repeated. *)
Definition loop_event (e : event) : bool :=
  match e with
  | Stop | TimerFires _ _ | DetectionSettles _ _ => true
  | _ => false
  end.

(** The module once the model has been loaded, nothing else done. *)
Definition ready : state := run [LoadModel true; LoadResolved] initial.

(** A playing 640 by 480 video ([HAVE_ENOUGH_DATA]). *)
Definition playing : VideoElement :=
  {| readyState := 4; videoWidth := 640; videoHeight := 480 |}.

(** A classifier answer that favours coffee, and the detection it
    yields on the [playing] frame. *)
Definition coffee_frame : inference :=
  Probabilities [82 # 100; 10 # 100; 8 # 100]%Q.

Definition coffee_detection : DetectionResult :=
  {| product := coffee; className := "caffee"; confidence := (82 # 100)%Q;
     displayName := p_nameAr coffee +:+ " / " +:+ p_nameEn coffee;
     boundingBox := {| box_x := 176; box_y := 96;
                       box_width := 288; box_height := 288 |} |}.



(** [getProductById(id)]: [None] is [null]. *)
Definition getProductById (i : Z) : option Product :=
  List.find (fun p => p_id p =? i) PRODUCTS.

(** A string of white space only. *)
Fixpoint all_space (s : string) : bool :=
  match s with
  | EmptyString => true
  | String c s' => is_space c && all_space s'
  end.

(** The events of a running loop: a timer fires, a detection settles. *)
Definition is_tick (e : event) : bool :=
  match e with
  | TimerFires _ _ | DetectionSettles _ _ => true
  | _ => false
  end.

(** The poller at rest on a loaded model: no handle, no timer pending,
    no cycle in flight. *)
Definition idle (st : state) : Prop :=
  modelLoaded st = true /\ is_Some (model st)
  /\ continuousDetectionId st = None
  /\ timers st = [] /\ inflight st = []
  /\ 0 < next_timer st.

(** One chain of cycles reporting to [callback]: either a single cycle
    is in flight and no timer is pending, or nothing is in flight and the
    single pending timer is the one the handle names. *)
Definition one_chain (callback : Callback) (st : state) : Prop :=
  modelLoaded st = true /\ is_Some (model st)
  /\ continuousDetectionCallback st = Some callback
  /\ 0 < next_timer st
  /\ ((exists v, inflight st = [v] /\ timers st = [])
      \/ (exists t, inflight st = [] /\ timers st = [t]
                    /\ continuousDetectionId st = Some t /\ t <> 0)).

(** The load flags agree with the model variable: the model is held
    exactly when [modelLoaded] is set, and no load is waiting then. *)
Definition load_consistent (st : state) : Prop :=
  (modelLoaded st = true <-> is_Some (model st))
  /\ (modelLoading st = true -> modelLoaded st = false).

(** Timer handles are positive integers, as [setTimeout] returns them. *)
Definition handles_positive (st : state) : Prop :=
  0 < next_timer st
  /\ forall t, continuousDetectionId st = Some t -> 0 < t.

(** What one chain of cycles adds to the log: calls of [callback] alone,
    each with at most one detection. *)
Definition reports_to (callback : Callback)
    (calls : list (Callback * list DetectionResult)) : Prop :=
  Forall (fun call => fst call = callback /\ (length (snd call) <= 1)%nat) calls.

End Detection.

(* --------------------------------------------------------------------- *)
(** ** export.js                                                          *)
(* --------------------------------------------------------------------- *)

(** The module is [Export] in the source, a reserved word here. *)
Module Exporter.
Local Open Scope js_scope.

(** The object serialised into an order file. *)
Record ExportData : Type := mkExportData {
  orderId : string;
  timestamp : string;
  items : list Cart.CartItem;
  total : Z;
  itemsCount : nat
}.

(** The object returned by the export functions: [success], and the
    properties present in each case. *)
Record ExportResult : Type := mkExportResult {
  success : bool;
  result_orderId : option string;
  filename : option string;
  error : option string
}.

(** What the browser supplies to one export: [Date.now()] in decimal, the
    six characters drawn from [Math.random()], the ISO time, and the
    message of the exception if building or downloading the file throws. *)
Record env : Type := mkEnv {
  date_now : string;
  random_suffix : string;
  iso_now : string;
  download_error : option string
}.

(** The files the browser has been handed so far: name and content. *)
Definition downloads : Type := list (string * ExportData).

(** [generateOrderId()]. *)
Definition generateOrderId (e : env) : string :=
  "order_" +:+ date_now e +:+ "_" +:+ random_suffix e.

(** [downloadJSON(data, filename)]. *)
Definition downloadJSON (e : env) (data : ExportData) (name : string)
    : M downloads string :=
  match download_error e with
  | Some message => throw message
  | None => modify (fun files => files ++ [(name, data)]) >> ret name
  end.

(** [exportOrder(orderData)]. *)
Definition exportOrder (e : env) (orderData : Cart.OrderData)
    : M downloads ExportResult :=
  try_catch
    (let orderId := generateOrderId e in
     let exportData :=
       {| orderId := orderId;
          timestamp := iso_now e;
          items := Cart.od_items orderData;
          total := Cart.od_total orderData;
          itemsCount := Cart.od_itemsCount orderData |} in
     let! name := downloadJSON e exportData ("order_" +:+ orderId +:+ ".json") in
     ret {| success := true; result_orderId := Some orderId;
            filename := Some name; error := None |})
    (fun message =>
       ret {| success := false; result_orderId := None;
              filename := None; error := Some message |}).

(** [exportCurrentCart()]. *)
Definition exportCurrentCart (e : env) (cart : Cart.state)
    : M downloads ExportResult :=
  let orderData := Cart.getOrderData cart in
  if (length (Cart.od_items orderData) =? 0)%nat then
    ret {| success := false; result_orderId := None;
           filename := None; error := Some "Cart is empty" |}
  else exportOrder e orderData.

(** A string without the separator [_], as the decimal text of
    [Date.now()] is. *)
Fixpoint no_underscore (s : string) : bool :=
  match s with
  | EmptyString => true
  | String c s' => negb (Ascii.eqb c "_") && no_underscore s'
  end.

End Exporter.

(* --------------------------------------------------------------------- *)
(** ** cart.js: the camera module                                         *)
(* --------------------------------------------------------------------- *)

Module Camera.

(** A [MediaStream], named by the order in which the browser grants it. *)
Definition MediaStream : Type := nat.

(** What [handleCameraError] reads of an exception.  An absent message
    is the empty string, which [||] treats alike. *)
Record CameraError : Type := mkCameraError {
  err_name : string;
  err_message : string
}.

(** The object returned by [handleCameraError]. *)
Record ErrorResult : Type := mkErrorResult {
  er_error : bool;
  er_type : string;
  er_message : string
}.

(** [handleCameraError(error)]. *)
Definition handleCameraError (error : CameraError) : ErrorResult :=
  if String.eqb (err_name error) "NotAllowedError" then
    {| er_error := true; er_type := "permission";
       er_message := "Camera permission denied. Please allow camera access in your browser settings." |}
  else if String.eqb (err_name error) "NotFoundError" then
    {| er_error := true; er_type := "hardware";
       er_message := "No camera found. Please connect a camera and try again." |}
  else if String.eqb (err_name error) "NotReadableError" then
    {| er_error := true; er_type := "hardware";
       er_message := "Camera is in use by another application. Please close other apps using the camera." |}
  else if String.eqb (err_name error) "OverconstrainedError" then
    {| er_error := true; er_type := "settings";
       er_message := "Camera does not support the requested settings. Trying default settings..." |}
  else
    {| er_error := true; er_type := "unknown";
       er_message :=
         "Camera error: " +:+
         (if String.eqb (err_message error) "" then "Unknown error"
          else err_message error) |}.

(** The module variables [stream] and [isActive], followed by what the
    model keeps of the browser: the texts [showError] has displayed, the
    streams whose tracks have been stopped, and the activations of
    [startCamera] suspended at each of its two [await]s.  Class lists,
    button states and the canvas are not modelled. *)
Record state : Type := mkState {
  stream : option MediaStream;
  isActive : bool;
  shown : list string;
  stopped : list MediaStream;
  requesting : nat;
  starting : nat
}.

Definition initial : state :=
  {| stream := None; isActive := false; shown := []; stopped := [];
     requesting := O; starting := O |}.

(** [showError(message)]. *)
Definition showError (message : string) (st : state) : state :=
  {| stream := stream st; isActive := isActive st;
     shown := shown st ++ [message]; stopped := stopped st;
     requesting := requesting st; starting := starting st |}.

(** [startCamera()] up to [await getUserMedia(..)]. *)
Definition startCamera (st : state) : state :=
  {| stream := stream st; isActive := isActive st;
     shown := shown st; stopped := stopped st;
     requesting := S (requesting st); starting := starting st |}.

(** [getUserMedia] resolves with [s]: the stream is stored and shown,
    the module is marked active, and the call waits for [play()]. *)
Definition startCamera_granted (s : MediaStream) (st : state) : state :=
  match requesting st with
  | O => st
  | S waiting =>
      {| stream := Some s; isActive := true;
         shown := shown st; stopped := stopped st;
         requesting := waiting; starting := S (starting st) |}
  end.

(** [getUserMedia] rejects: the [catch] block. *)
Definition startCamera_denied (error : CameraError) (st : state) : state :=
  match requesting st with
  | O => st
  | S waiting =>
      showError (er_message (handleCameraError error))
        {| stream := stream st; isActive := isActive st;
           shown := shown st; stopped := stopped st;
           requesting := waiting; starting := starting st |}
  end.

(** [videoElement.play()] resolves: the call returns [{ success: true }]. *)
Definition startCamera_played (st : state) : state :=
  match starting st with
  | O => st
  | S waiting =>
      {| stream := stream st; isActive := isActive st;
         shown := shown st; stopped := stopped st;
         requesting := requesting st; starting := waiting |}
  end.

(** [videoElement.play()] rejects: the [catch] block. *)
Definition startCamera_play_failed (error : CameraError) (st : state) : state :=
  match starting st with
  | O => st
  | S waiting =>
      showError (er_message (handleCameraError error))
        {| stream := stream st; isActive := isActive st;
           shown := shown st; stopped := stopped st;
           requesting := requesting st; starting := waiting |}
  end.

(** [stopCamera()]. *)
Definition stopCamera (st : state) : state :=
  {| stream := None; isActive := false;
     shown := shown st;
     stopped := match stream st with
                | Some s => stopped st ++ [s]
                | None => stopped st
                end;
     requesting := requesting st; starting := starting st |}.

Definition isRunning (st : state) : bool := isActive st.

(** [captureFrame()]: whether a frame is returned rather than [null]. *)
Definition captureFrame (videoWidth : Z) (st : state) : bool :=
  negb (negb (isActive st) || (videoWidth =? 0)).

Inductive event : Type :=
  | StartCamera
  | Granted (s : MediaStream)
  | Denied (error : CameraError)
  | Played
  | PlayFailed (error : CameraError)
  | StopCamera.

Definition step (st : state) (e : event) : state :=
  match e with
  | StartCamera => startCamera st
  | Granted s => startCamera_granted s st
  | Denied error => startCamera_denied error st
  | Played => startCamera_played st
  | PlayFailed error => startCamera_play_failed error st
  | StopCamera => stopCamera st
  end.

Definition run (events : list event) (st : state) : state :=
  fold_left step events st.

(** The streams the browser granted to a waiting call, oldest first. *)
Fixpoint granted (events : list event) (st : state) : list MediaStream :=
  match events with
  | [] => []
  | e :: events' =>
      match e, requesting st with
      | Granted s, S _ => s :: granted events' (step st e)
      | _, _ => granted events' (step st e)
      end
  end.

(** The names [handleCameraError] knows. *)
Definition known_names : list string :=
  ["NotAllowedError"; "NotFoundError"; "NotReadableError";
   "OverconstrainedError"].

End Camera.

(* --------------------------------------------------------------------- *)
(** ** app.js                                                             *)
(* --------------------------------------------------------------------- *)

Module App.
Local Open Scope js_scope.

(** The state of the whole page: the four modules and the coordinator's
    own two variables. *)
Record state : Type := mkState {
  cart : Cart.state;
  stats : Stats.world;
  detection : Detection.state;
  files : Exporter.downloads;
  continuousScanActive : bool;
  currentDetections : list Detection.DetectionResult
}.

Definition with_cart (c : Cart.state) (a : state) : state :=
  {| cart := c; stats := stats a; detection := detection a; files := files a;
     continuousScanActive := continuousScanActive a;
     currentDetections := currentDetections a |}.

Definition with_stats (w : Stats.world) (a : state) : state :=
  {| cart := cart a; stats := w; detection := detection a; files := files a;
     continuousScanActive := continuousScanActive a;
     currentDetections := currentDetections a |}.

Definition with_detection (d : Detection.state) (a : state) : state :=
  {| cart := cart a; stats := stats a; detection := d; files := files a;
     continuousScanActive := continuousScanActive a;
     currentDetections := currentDetections a |}.

Definition with_files (f : Exporter.downloads) (a : state) : state :=
  {| cart := cart a; stats := stats a; detection := detection a; files := f;
     continuousScanActive := continuousScanActive a;
     currentDetections := currentDetections a |}.

Definition with_scan (b : bool) (a : state) : state :=
  {| cart := cart a; stats := stats a; detection := detection a;
     files := files a; continuousScanActive := b;
     currentDetections := currentDetections a |}.

Definition with_current (l : list Detection.DetectionResult) (a : state) : state :=
  {| cart := cart a; stats := stats a; detection := detection a;
     files := files a; continuousScanActive := continuousScanActive a;
     currentDetections := l |}.

Definition in_stats {A : Type} (m : M Stats.world A) : M state A :=
  zoom stats with_stats m.

Definition in_files {A : Type} (m : M Exporter.downloads A) : M state A :=
  zoom files with_files m.

(** [stopContinuousScan()]. *)
Definition stopContinuousScan : M state unit :=
  let! a := get_state in
  if negb (continuousScanActive a) then ret tt
  else
    modify (with_scan false) >>
    modify (fun a => with_detection
                       (Detection.stopContinuousDetection (detection a)) a).

(** [clearDetectedProductsDisplay()]. *)
Definition clearDetectedProductsDisplay : M state unit :=
  modify (with_current []).

(** [addDetectedToCart(detectionIndex)]; [now] is the clock reading used
    by [Cart.addItem]. *)
Definition addDetectedToCart (detectionIndex : nat) (now : string)
    : M state unit :=
  let! a := get_state in
  match currentDetections a !! detectionIndex with
  | Some d =>
      modify (fun a =>
                with_cart
                  (snd (Cart.addItem (Detection.product d)
                          (Some (Detection.confidence d)) now (cart a))) a) >>
      in_stats (Stats.incrementItemsScanned 1)
  | None => ret tt
  end.

(** The click handler installed by [setupCompleteOrderEvent];
    [confirmed] is the answer to the confirmation dialog. *)
Definition completeOrder (confirmed : bool) (e : Exporter.env) : M state unit :=
  let! a := get_state in
  let orderData := Cart.getOrderData (cart a) in
  if (length (Cart.od_items orderData) =? 0)%nat then ret tt
  else if negb confirmed then ret tt
  else
    (if continuousScanActive a then stopContinuousScan else ret tt) >>
    let! exportResult := in_files (Exporter.exportOrder e orderData) in
    if Exporter.success exportResult then
      in_stats Stats.incrementOrders >>
      in_stats (Stats.addRevenue (Cart.od_total orderData)) >>
      modify (fun a => with_cart (Cart.clearCart (cart a)) a) >>
      clearDetectedProductsDisplay
    else ret tt.

(** The order file [exportOrder] writes for the snapshot of a cart. *)
Definition order_file (e : Exporter.env) (c : Cart.state)
    : string * Exporter.ExportData :=
  ("order_" +:+ Exporter.generateOrderId e +:+ ".json",
   {| Exporter.orderId := Exporter.generateOrderId e;
      Exporter.timestamp := Exporter.iso_now e;
      Exporter.items := Cart.items c;
      Exporter.total := Cart.getTotal c;
      Exporter.itemsCount := Cart.getItemCount c |}).

(** The click handler installed by [setupClearCartEvent]. *)
Definition clearCartClick : M state unit :=
  modify (fun a => with_cart (Cart.clearCart (cart a)) a) >>
  clearDetectedProductsDisplay.

(** The callback [startContinuousScan] hands to the poller. *)
Definition onDetections (detections : list Detection.DetectionResult)
    : M state unit :=
  modify (with_current detections) >>
  if (0 <? length detections)%nat then ret tt
  else clearDetectedProductsDisplay.

(** [performScan()] from the moment [Detection.scanProducts()] has
    resolved with [detections]: the rest of the [try] block, with its
    [catch]. *)
Definition performScan_resume (detections : list Detection.DetectionResult)
    (now : string) : M state unit :=
  try_catch
    (modify (with_current detections) >>
     if (length detections =? 0)%nat then clearDetectedProductsDisplay
     else
       match detections !! 0%nat with
       | Some firstDetection =>
           modify (fun a =>
                     with_cart
                       (snd (Cart.addItem (Detection.product firstDetection)
                               (Some (Detection.confidence firstDetection))
                               now (cart a))) a) >>
           in_stats (Stats.incrementItemsScanned 1)
       | None => ret tt
       end)
    (fun _ => ret tt).

(** What the user and the event loop do to the page once it is set up:
    the poller reports, a single scan resolves, and the buttons of the
    detection list, of the cart rows and of the cart are clicked. *)
Inductive event : Type :=
  | PollerReports (detections : list Detection.DetectionResult)
  | ScanResolves (detections : list Detection.DetectionResult) (now : string)
  | AddToCartClicked (detectionIndex : nat) (now : string)
  | RemoveClicked (itemId : Z)
  | CompleteOrderClicked (confirmed : bool) (e : Exporter.env)
  | ClearCartClicked.

Definition after {A : Type} (o : outcome state A) : option state :=
  match o with
  | Returns _ a | Throws _ a => Some a
  | Unmodelled => None
  end.

Definition step (a : state) (ev : event) : option state :=
  match ev with
  | PollerReports detections => after (onDetections detections a)
  | ScanResolves detections now => after (performScan_resume detections now a)
  | AddToCartClicked detectionIndex now =>
      after (addDetectedToCart detectionIndex now a)
  | RemoveClicked itemId =>
      Some (with_cart (Cart.removeItem itemId (cart a)) a)
  | CompleteOrderClicked confirmed e => after (completeOrder confirmed e a)
  | ClearCartClicked => after (clearCartClick a)
  end.

Fixpoint run (events : list event) (a : state) : option state :=
  match events with
  | [] => Some a
  | ev :: events' =>
      match step a ev with
      | Some a' => run events' a'
      | None => None
      end
  end.




End App.

(* ===================================================================== *)
(** * Part II: properties                                                 *)
(* ===================================================================== *)

(* --------------------------------------------------------------------- *)
(** ** Cart: total and identifiers                                        *)
(* --------------------------------------------------------------------- *)

Section CartFacts.
Import Cart.

Lemma fold_prices_from (l : list CartItem) (acc : Z) :
  fold_left (fun sum item => sum + price item) l acc = acc + sum_prices l.
Proof.
  revert acc. induction l as [|item l IH]; intros acc; simpl.
  - lia.
  - rewrite IH. lia.
Qed.

Lemma getTotal_sum (s : state) : getTotal s = sum_prices (items s).
Proof. unfold getTotal. rewrite fold_prices_from. lia. Qed.

Lemma sum_prices_app (l1 l2 : list CartItem) :
  sum_prices (l1 ++ l2) = sum_prices l1 + sum_prices l2.
Proof. induction l1 as [|x l1 IH]; simpl; lia. Qed.

Lemma getTotal_addItem product conf now s :
  getTotal (snd (addItem product conf now s)) = getTotal s + p_price product.
Proof. rewrite !getTotal_sum. simpl. rewrite sum_prices_app. simpl. lia. Qed.

Lemma getTotal_clearCart s : getTotal (clearCart s) = 0.
Proof. reflexivity. Qed.

Lemma findIndex_Some {A} (f : A -> bool) (l : list A) (i : nat) :
  findIndex f l = Some i ->
  exists x, l !! i = Some x /\ f x = true
            /\ forall j y, (j < i)%nat -> l !! j = Some y -> f y = false.
Proof.
  revert i. induction l as [|a l IH]; intros i; simpl; [discriminate|].
  destruct (f a) eqn:Hfa.
  - intros [= <-]. exists a. repeat split; auto. intros j y Hj. lia.
  - destruct (findIndex f l) as [i'|] eqn:Hfi; simpl; [|discriminate].
    intros [= <-]. destruct (IH i' eq_refl) as (x & Hx & Hfx & Hbefore).
    exists x. repeat split; auto.
    intros [|j] y Hj Hy; simpl in Hy.
    + congruence.
    + apply (Hbefore j); [lia|done].
Qed.

Lemma findIndex_None {A} (f : A -> bool) (l : list A) :
  findIndex f l = None -> forall x, x ∈ l -> f x = false.
Proof.
  induction l as [|a l IH]; simpl; intros Hnone x Hx.
  - inversion Hx.
  - destruct (f a) eqn:Hfa; [discriminate|].
    destruct (findIndex f l) eqn:Hfi; [discriminate|].
    apply elem_of_cons in Hx as [->|Hx]; auto.
Qed.

Lemma splice1_middle {A} (l : list A) (i : nat) (x : A) :
  l !! i = Some x -> l = take i l ++ x :: drop (S i) l.
Proof. intros H. symmetry. by apply take_drop_middle. Qed.

(** Removing a present item lowers the total by that item's price. *)
Lemma getTotal_removeItem itemId s index item :
  findIndex (fun it => id it =? itemId) (items s) = Some index ->
  items s !! index = Some item ->
  getTotal (removeItem itemId s) = getTotal s - price item.
Proof.
  intros Hfi Hitem. unfold removeItem. rewrite Hfi.
  rewrite !getTotal_sum. simpl. unfold splice1. rewrite delete_take_drop.
  rewrite (splice1_middle (items s) index item Hitem) at 3.
  rewrite !sum_prices_app. simpl. lia.
Qed.

Lemma ids_ok_initial : ids_ok initial.
Proof. split; simpl; constructor. Qed.

Lemma ids_ok_step s o : ids_ok s -> ids_ok (step s o).
Proof.
  intros [Hle Hnd]. destruct o as [product conf now|itemId|]; simpl.
  - split; simpl.
    + apply Forall_app. split.
      * eapply Forall_impl; [exact Hle|]. simpl. intros; lia.
      * repeat constructor. simpl. lia.
    + rewrite fmap_app. apply NoDup_app. repeat split; auto.
      * intros i Hi Hin. simpl in Hin. apply list_elem_of_singleton in Hin.
        apply list_elem_of_fmap in Hi as (it & -> & Hit).
        rewrite Forall_forall in Hle. specialize (Hle it Hit). simpl in *. lia.
      * simpl. apply NoDup_singleton.
  - unfold removeItem.
    destruct (findIndex _ _) as [index|]; [|by split].
    split; simpl; unfold splice1.
    + rewrite Forall_forall in *. intros it Hit. apply Hle.
      eapply elem_of_sublist; [exact Hit|apply sublist_delete].
    + eapply sublist_NoDup; [exact Hnd|].
      apply fmap_sublist, sublist_delete.
  - split; simpl; constructor.
Qed.

Lemma ids_ok_run ops s : ids_ok s -> ids_ok (run ops s).
Proof.
  revert s. induction ops as [|o ops IH]; intros s Hs; simpl; auto.
  apply IH, ids_ok_step, Hs.
Qed.

Lemma counter_step s o : itemIdCounter s <= itemIdCounter (step s o).
Proof.
  destruct o as [product conf now|itemId|]; simpl; try lia.
  unfold removeItem. destruct (findIndex _ _); simpl; lia.
Qed.

(** The counter never goes down. *)
Lemma counter_run ops s : itemIdCounter s <= itemIdCounter (run ops s).
Proof.
  revert s. induction ops as [|o ops IH]; intros s; simpl; [lia|].
  etransitivity; [apply counter_step|apply IH].
Qed.

(** Every identifier issued during a run lies above the counter the run
    started from and at most at the counter it ends with. *)
Lemma issued_range ops s :
  Forall (fun i => itemIdCounter s < i <= itemIdCounter (run ops s))
         (issued ops s).
Proof.
  revert s. induction ops as [|o ops IH]; intros s; simpl; [constructor|].
  assert (Hrest : Forall
            (fun i => itemIdCounter s < i <= itemIdCounter (run ops (step s o)))
            (issued ops (step s o))).
  { eapply Forall_impl; [apply IH|]. simpl. intros i Hi.
    pose proof (counter_step s o). lia. }
  destruct o as [product conf now|itemId|]; auto.
  constructor; auto. simpl.
  pose proof (counter_run ops (step s (AddItem product conf now))) as Hc.
  simpl in Hc. lia.
Qed.

(** The identifiers are issued in strictly increasing order. *)
Lemma issued_sorted ops s : StronglySorted Z.lt (issued ops s).
Proof.
  revert s. induction ops as [|o ops IH]; intros s; simpl; [constructor|].
  destruct o as [product conf now|itemId|]; auto.
  constructor; auto.
  eapply Forall_impl; [apply issued_range|]. simpl. intros i Hi. lia.
Qed.

Lemma step_items s o item :
  item ∈ items (step s o) ->
  item ∈ items s
  \/ exists product conf now,
       o = AddItem product conf now
       /\ item = fst (addItem product conf now s).
Proof.
  destruct o as [product conf now|itemId|]; simpl.
  - intros [Hin|Hin]%elem_of_app; [by left|].
    apply list_elem_of_singleton in Hin. right. eauto.
  - unfold removeItem. destruct (findIndex _ _); simpl; auto.
    intros Hin. left. eapply elem_of_sublist; [exact Hin|apply sublist_delete].
  - intros Hin. inversion Hin.
Qed.

(** An item in the cart after a run was there before it or carries an
    identifier issued during it. *)
Lemma run_items ops s item :
  item ∈ items (run ops s) -> item ∈ items s \/ id item ∈ issued ops s.
Proof.
  revert s. induction ops as [|o ops IH]; intros s; simpl; [by left|].
  intros Hin. destruct (IH _ Hin) as [Hstep|Hiss].
  - destruct (step_items _ _ _ Hstep) as [|(product & conf & now & -> & ->)];
      [by left|].
    right. simpl. left.
  - right. destruct o; simpl; auto. by right.
Qed.

(** After [removeItem(itemId)] no item carries [itemId], provided the
    identifiers were distinct. *)
Lemma removeItem_gone itemId s item :
  NoDup (id <$> items s) ->
  item ∈ items (removeItem itemId s) -> id item <> itemId.
Proof.
  intros Hnd. unfold removeItem.
  destruct (findIndex _ _) as [index|] eqn:Hfi; simpl.
  - destruct (findIndex_Some _ _ _ Hfi) as (x & Hx & Hfx & _).
    apply Z.eqb_eq in Hfx. unfold splice1. rewrite delete_take_drop.
    rewrite (splice1_middle _ _ _ Hx) in Hnd.
    rewrite fmap_app, fmap_cons in Hnd.
    apply NoDup_app in Hnd as (_ & Hdisj & Hnd2).
    apply NoDup_cons in Hnd2 as [Hnotin _].
    intros [Hin|Hin]%elem_of_app Heq.
    + apply (Hdisj (id item)); [by apply list_elem_of_fmap_2|].
      rewrite Heq, <- Hfx. by left.
    + apply Hnotin. rewrite Hfx, <- Heq. by apply list_elem_of_fmap_2.
  - intros Hin Heq. pose proof (findIndex_None _ _ Hfi item Hin) as Hf.
    simpl in Hf. apply Z.eqb_neq in Hf. done.
Qed.

Lemma removeItem_length itemId s :
  (length (items s) <= S (length (items (removeItem itemId s))))%nat.
Proof.
  unfold removeItem. destruct (findIndex _ _) as [index|] eqn:Hfi; simpl.
  - destruct (findIndex_Some _ _ _ Hfi) as (x & Hx & _).
    unfold splice1. rewrite length_delete by eauto. lia.
  - lia.
Qed.

Lemma findIndex_find {A} (f : A -> bool) (l : list A) :
  match findIndex f l with
  | Some i => l !! i = List.find f l /\ is_Some (List.find f l)
  | None => List.find f l = None
  end.
Proof.
  induction l as [|a l IH]; simpl; [done|].
  destruct (f a); simpl; [eauto|].
  destruct (findIndex f l); simpl; auto.
Qed.

(** C4: after every sequence of [addItem], [removeItem] and [clearCart]
    calls, in any order and number, [getTotal()] equals the sum of the
    prices of the items then in the cart (and so does the [total] of the
    order snapshot); and the total moves with each operation as a running
    total would: up by the price on an add, down by the removed item's
    price on a remove, to zero on a clear. *)
Theorem cart_total_is_sum_of_prices (ops : list op) :
  let s := run ops initial in
  getTotal s = sum_prices (items s)
  /\ od_total (getOrderData s) = sum_prices (od_items (getOrderData s))
  /\ (forall product conf now,
        getTotal (step s (AddItem product conf now)) = getTotal s + p_price product)
  /\ (forall itemId,
        getTotal (step s (RemoveItem itemId))
        = getTotal s
          - from_option price 0
              (List.find (fun it => id it =? itemId) (items s)))
  /\ getTotal (step s ClearCart) = 0.
Proof.
  intros s. repeat split.
  - apply getTotal_sum.
  - apply getTotal_sum.
  - intros. apply getTotal_addItem.
  - intros itemId. simpl.
    pose proof (findIndex_find (fun it => id it =? itemId) (items s)) as Hff.
    destruct (findIndex _ _) as [index|] eqn:Hfi.
    + destruct Hff as [Hlk [item Hitem]]. rewrite Hitem in *. simpl.
      by apply (getTotal_removeItem itemId s index item).
    + rewrite Hff. simpl. unfold removeItem. rewrite Hfi. lia.
Qed.

(** C10: identifiers are fresh for the whole life of the module.  After
    any sequence of calls, the next [addItem] returns an identifier
    strictly greater than every identifier issued before; identifiers
    are issued in strictly increasing order, so none is issued twice,
    whatever removals and clears (which leave the counter alone) came in
    between; every item in the cart carries an issued identifier and no
    two items carry the same one; hence [removeItem(itemId)] takes out at
    most one item and leaves none carrying [itemId]. *)
Theorem cart_ids_fresh (ops : list op) :
  let s := run ops initial in
  (forall product conf now i,
      i ∈ issued ops initial -> i < id (fst (addItem product conf now s)))
  /\ StronglySorted Z.lt (issued ops initial)
  /\ itemIdCounter (clearCart s) = itemIdCounter s
  /\ (forall item, item ∈ items s -> id item ∈ issued ops initial)
  /\ NoDup (id <$> items s)
  /\ (forall itemId,
        (length (items s) <= S (length (items (removeItem itemId s))))%nat
        /\ forall item, item ∈ items (removeItem itemId s) -> id item <> itemId).
Proof.
  intros s. pose proof (ids_ok_run ops initial ids_ok_initial) as [Hle Hnd].
  fold s in Hle, Hnd. repeat split.
  - intros product conf now i Hi. simpl.
    pose proof (issued_range ops initial) as Hr.
    rewrite Forall_forall in Hr. specialize (Hr i Hi). fold s in Hr. lia.
  - apply issued_sorted.
  - intros item Hin. destruct (run_items ops initial item Hin) as [Hinit|]; auto.
    inversion Hinit.
  - exact Hnd.
  - apply removeItem_length.
  - intros item. by apply removeItem_gone.
Qed.

(** The sequence add, add, remove 1, clear, add issues 1, 2, 3: the
    identifier after the clear is above the ones handed out before. *)
Lemma cart_ids_fresh_witness :
  let coffee := mkProduct 1 "Coffee" "Coffee" 100 "caffee" in
  let ops := [AddItem coffee None "t0"; AddItem coffee None "t1";
              RemoveItem 1; ClearCart] in
  2 ∈ issued ops initial
  /\ 2 < id (fst (addItem coffee None "t2" (run ops initial))).
Proof.
  intros coffee ops. split.
  - vm_compute. apply list_elem_of_In. simpl. auto.
  - apply (proj1 (cart_ids_fresh ops) coffee None "t2" 2).
    apply list_elem_of_In. simpl. auto.
Defined.

End CartFacts.

(* --------------------------------------------------------------------- *)
(** ** JSON: printing then parsing an integer and a stats record          *)
(* --------------------------------------------------------------------- *)

Section JsonFacts.
Import Json.

Lemma nzhead_canonical (v : uint) : nzhead v = Nil \/ canonical (nzhead v).
Proof.
  induction v; simpl; auto; right; exact I.
Qed.

Lemma unorm_canonical (v : uint) : canonical (unorm v).
Proof.
  unfold unorm.
  destruct (nzhead_canonical v) as [H|H]; destruct (nzhead v);
    simpl in *; done.
Qed.

Lemma to_uint_canonical (p : positive) : canonical (Pos.to_uint p).
Proof.
  pose proof (DecimalPos.Unsigned.to_of (Pos.to_uint p)) as H.
  rewrite DecimalPos.Unsigned.of_to in H. simpl in H.
  rewrite H. apply unorm_canonical.
Qed.

Lemma parse_digits_print (u : uint) (rest : string) :
  ends_number rest ->
  parse_digits (print_uint u +:+ rest) = (u, rest).
Proof.
  intros Hrest. induction u; simpl; try (rewrite IHu; reflexivity).
  destruct rest as [|c rest']; simpl; [reflexivity|].
  destruct Hrest as [-> _]. reflexivity.
Qed.

Lemma parse_unsigned_print (u : uint) (rest : string) :
  canonical u -> ends_number rest ->
  parse_unsigned (print_uint u +:+ rest) = POk (Z.of_uint u) rest.
Proof.
  intros Hu Hrest. unfold parse_unsigned.
  rewrite parse_digits_print by assumption.
  assert (Hcont : continues_number rest = false).
  { destruct rest; [reflexivity|]. apply Hrest. }
  destruct u as [|u'|u'|u'|u'|u'|u'|u'|u'|u'|u']; simpl in Hu; try done;
    try (rewrite Hcont; reflexivity).
  destruct u'; try done. rewrite Hcont. reflexivity.
Qed.

(** Printing an integer and reading it back. *)
Lemma parse_number_print (n : Z) (rest : string) :
  ends_number rest ->
  parse_number (print_Z n +:+ rest) = POk n rest.
Proof.
  intros Hrest. unfold print_Z.
  pose proof (DecimalZ.of_to n) as Hn.
  destruct n as [|p|p]; simpl in *.
  - destruct rest as [|c rest']; simpl; [reflexivity|].
    unfold parse_unsigned. simpl.
    destruct Hrest as [Hd Hc]. rewrite Hd, Hc. reflexivity.
  - pose proof (to_uint_canonical p) as Hcan.
    pose proof (parse_unsigned_print _ rest Hcan Hrest) as Hp.
    change (Z.of_uint (Pos.to_uint p) = Z.pos p) in Hn. rewrite Hn in Hp.
    destruct (Pos.to_uint p) as [|u|u|u|u|u|u|u|u|u|u]; simpl in Hcan;
      try done; exact Hp.
  - pose proof (to_uint_canonical p) as Hcan.
    pose proof (parse_unsigned_print _ rest Hcan Hrest) as Hp.
    change (- Z.of_uint (Pos.to_uint p) = Z.neg p) in Hn.
    cbn [append]. rewrite Hp, Hn. reflexivity.
Qed.

Lemma parse_value_number_start (fuel : nat) (c : ascii) (s : string) :
  number_start c = true ->
  parse_value (S fuel) (String c s)
  = match parse_number (String c s) with
    | POk n rest => POk (JNum n) rest
    | PSyntax => PSyntax
    | PUnsupported => PUnsupported
    end.
Proof.
  unfold number_start, digit_cons.
  destruct (Ascii.eqb_spec c "-") as [->|_]; [reflexivity|].
  repeat match goal with
         | |- context [Ascii.eqb c ?d] =>
             destruct (Ascii.eqb_spec c d) as [->|_]; [reflexivity|]
         end.
  discriminate.
Qed.

Lemma print_uint_head (u : uint) (rest : string) :
  canonical u ->
  exists c s, print_uint u +:+ rest = String c s /\ number_start c = true.
Proof.
  destruct u; simpl; try done; intros _; eexists _, _; split; reflexivity.
Qed.

Lemma print_Z_head (n : Z) (rest : string) :
  exists c s, print_Z n +:+ rest = String c s /\ number_start c = true.
Proof.
  unfold print_Z. destruct n as [|p|p]; cbn [Z.to_int].
  - apply print_uint_head. exact I.
  - apply print_uint_head, to_uint_canonical.
  - eexists _, _. split; reflexivity.
Qed.

Lemma parse_value_number (fuel : nat) (n : Z) (rest : string) :
  ends_number rest ->
  parse_value (S fuel) (print_Z n +:+ rest) = POk (JNum n) rest.
Proof.
  intros Hrest. pose proof (parse_number_print n rest Hrest) as Hp.
  destruct (print_Z_head n rest) as (c & s & Heq & Hc).
  rewrite Heq in *. rewrite parse_value_number_start by assumption.
  rewrite Hp. reflexivity.
Qed.

Lemma ends_number_comma (s : string) : ends_number (String "," s).
Proof. split; reflexivity. Qed.

Lemma ends_number_brace (s : string) : ends_number (String "}" s).
Proof. split; reflexivity. Qed.

(** An object whose first member follows the brace at once. *)
Lemma parse_value_object (fuel : nat) (key rest : string) :
  parse_value (S fuel) (String "{" (Stats.field_text key rest))
  = parse_members fuel (Stats.field_text key rest) [].
Proof. reflexivity. Qed.

(** One member [key:value], for a key that needs no escape, followed
    by a comma and a further member. *)
Lemma parse_members_comma (fuel : nat) (key vtext key' more : string)
    (v : json) (acc : list (string * json)) :
  (forall rest, parse_chars (key +:+ String dquote rest) = POk key rest) ->
  all_digits key = false ->
  parse_value fuel vtext = POk v (String "," (Stats.field_text key' more)) ->
  parse_members (S fuel) (Stats.field_text key vtext) acc
  = parse_members fuel (Stats.field_text key' more) (obj_set key v acc).
Proof.
  intros Hkey Hdigits Hv. unfold Stats.field_text.
  change (parse_members (S fuel)
            (String dquote (key +:+ String dquote (String ":" vtext))) acc)
    with (match parse_chars (key +:+ String dquote (String ":" vtext)) with
          | POk k s2 =>
              match skip_ws s2 with
              | String ":" s3 =>
                  match parse_value fuel s3 with
                  | POk v s4 =>
                      if all_digits k then PUnsupported
                      else
                        match skip_ws s4 with
                        | String "," s5 =>
                            parse_members fuel (skip_ws s5) (obj_set k v acc)
                        | String "}" s5 => POk (JObj (obj_set k v acc)) s5
                        | _ => PSyntax
                        end
                  | PSyntax => PSyntax
                  | PUnsupported => PUnsupported
                  end
              | _ => PSyntax
              end
          | PSyntax => PSyntax
          | PUnsupported => PUnsupported
          end).
  rewrite Hkey.
  change (skip_ws (String ":" vtext)) with (String ":" vtext).
  cbv iota beta. rewrite Hv, Hdigits. reflexivity.
Qed.

(** The last member, followed by the closing brace. *)
Lemma parse_members_last (fuel : nat) (key vtext rest : string) (v : json)
    (acc : list (string * json)) :
  (forall rest, parse_chars (key +:+ String dquote rest) = POk key rest) ->
  all_digits key = false ->
  parse_value fuel vtext = POk v (String "}" rest) ->
  parse_members (S fuel) (Stats.field_text key vtext) acc
  = POk (JObj (obj_set key v acc)) rest.
Proof.
  intros Hkey Hdigits Hv. unfold Stats.field_text.
  change (parse_members (S fuel)
            (String dquote (key +:+ String dquote (String ":" vtext))) acc)
    with (match parse_chars (key +:+ String dquote (String ":" vtext)) with
          | POk k s2 =>
              match skip_ws s2 with
              | String ":" s3 =>
                  match parse_value fuel s3 with
                  | POk v s4 =>
                      if all_digits k then PUnsupported
                      else
                        match skip_ws s4 with
                        | String "," s5 =>
                            parse_members fuel (skip_ws s5) (obj_set k v acc)
                        | String "}" s5 => POk (JObj (obj_set k v acc)) s5
                        | _ => PSyntax
                        end
                  | PSyntax => PSyntax
                  | PUnsupported => PUnsupported
                  end
              | _ => PSyntax
              end
          | PSyntax => PSyntax
          | PUnsupported => PUnsupported
          end).
  rewrite Hkey.
  change (skip_ws (String ":" vtext)) with (String ":" vtext).
  cbv iota beta. rewrite Hv, Hdigits. reflexivity.
Qed.

Lemma stringify_record (a b c : Z) :
  stringify (Stats.record a b c)
  = Stats.record_text (print_Z a) (print_Z b) (print_Z c).
Proof. reflexivity. Qed.

(** Parsing the printed stats record, with fuel to spare. *)
Lemma parse_value_record (fuel : nat) (a b c : Z) :
  parse_value (5 + fuel) (stringify (Stats.record a b c))
  = POk (Stats.record a b c) "".
Proof.
  rewrite stringify_record. unfold Stats.record_text.
  change (5 + fuel)%nat with (S (S (S (S (S fuel))))).
  rewrite parse_value_object.
  erewrite parse_members_comma;
    [|reflexivity|reflexivity|
     apply parse_value_number, ends_number_comma].
  erewrite parse_members_comma;
    [|reflexivity|reflexivity|
     apply parse_value_number, ends_number_comma].
  erewrite parse_members_last;
    [|reflexivity|reflexivity|
     apply parse_value_number, ends_number_brace].
  reflexivity.
Qed.

Lemma record_text_length (x y z : string) :
  exists fuel, S (String.length (Stats.record_text x y z)) = (5 + fuel)%nat.
Proof. eexists. reflexivity. Qed.

(** [JSON.parse(JSON.stringify(stats))] gives the record back. *)
Lemma JSON_roundtrip_record (a b c : Z) :
  JSON_parse (stringify (Stats.record a b c)) = Parsed (Stats.record a b c).
Proof.
  unfold JSON_parse.
  destruct (record_text_length (print_Z a) (print_Z b) (print_Z c))
    as [fuel Hfuel].
  rewrite <- stringify_record in Hfuel. rewrite Hfuel.
  rewrite parse_value_record. reflexivity.
Qed.

End JsonFacts.

(* --------------------------------------------------------------------- *)
(** ** Stats: loading, saving and the counters                            *)
(* --------------------------------------------------------------------- *)

Section StatsFacts.
Import Json Stats.

Lemma loadStats_unreadable (w : world) :
  readable (localStorage w) = false -> loadStats w = Returns tt w.
Proof.
  intros Hr. unfold loadStats, try_catch, bind, getItem. rewrite Hr.
  reflexivity.
Qed.

Lemma loadStats_absent (w : world) :
  contents (localStorage w) !! STORAGE_KEY = None ->
  loadStats w = Returns tt w.
Proof.
  intros Hk. unfold loadStats, try_catch, bind, getItem.
  destruct (readable (localStorage w)); [|reflexivity].
  rewrite Hk. reflexivity.
Qed.

Lemma loadStats_empty (w : world) :
  contents (localStorage w) !! STORAGE_KEY = Some "" ->
  loadStats w = Returns tt w.
Proof.
  intros Hk. unfold loadStats, try_catch, bind, getItem.
  destruct (readable (localStorage w)); [|reflexivity].
  rewrite Hk. reflexivity.
Qed.

Lemma loadStats_syntax_error (w : world) (text : string) :
  contents (localStorage w) !! STORAGE_KEY = Some text ->
  JSON_parse text = SyntaxError ->
  loadStats w = Returns tt w.
Proof.
  intros Hk Hp. unfold loadStats, try_catch, bind, getItem.
  destruct (readable (localStorage w)); [|reflexivity].
  rewrite Hk. destruct text as [|c text]; [reflexivity|].
  unfold JSON_parse_m. rewrite Hp. reflexivity.
Qed.

(** Text that parses is adopted as the new value of [stats], whatever
    its shape. *)
Lemma loadStats_parsed (w : world) (text : string) (v : json) :
  readable (localStorage w) = true ->
  contents (localStorage w) !! STORAGE_KEY = Some text ->
  text <> "" ->
  JSON_parse text = Parsed v ->
  loadStats w = Returns tt {| stats := v; localStorage := localStorage w |}.
Proof.
  intros Hr Hk Hne Hp. unfold loadStats, try_catch, bind, getItem.
  rewrite Hr, Hk. destruct text as [|c text]; [done|].
  unfold JSON_parse_m. rewrite Hp. reflexivity.
Qed.

Lemma saveStats_saved (w : world) :
  saveStats w = Returns tt (saved (stats w) (localStorage w)).
Proof.
  unfold saveStats, try_catch, bind, get_state, setItem, saved, written.
  destruct w as [v ls]; simpl. destruct (writable ls); reflexivity.
Qed.

Lemma updateDisplay_record (a b c : Z) (ls : LocalStorage) :
  updateDisplay {| stats := record a b c; localStorage := ls |}
  = Returns tt {| stats := record a b c; localStorage := ls |}.
Proof. reflexivity. Qed.

Lemma incrementItemsScanned_record (n a b c : Z) (ls : LocalStorage) :
  incrementItemsScanned n {| stats := record a b c; localStorage := ls |}
  = Returns tt (saved (record (a + n) b c) ls).
Proof.
  unfold incrementItemsScanned, bind.
  change (add_assign "itemsScanned" n {| stats := record a b c; localStorage := ls |})
    with (Returns (S := world) tt {| stats := record (a + n) b c; localStorage := ls |}).
  cbv iota beta. rewrite saveStats_saved. reflexivity.
Qed.

Lemma incrementOrders_record (a b c : Z) (ls : LocalStorage) :
  incrementOrders {| stats := record a b c; localStorage := ls |}
  = Returns tt (saved (record a (b + 1) c) ls).
Proof.
  unfold incrementOrders, bind.
  change (add_assign "ordersCompleted" 1 {| stats := record a b c; localStorage := ls |})
    with (Returns (S := world) tt {| stats := record a (b + 1) c; localStorage := ls |}).
  cbv iota beta. rewrite saveStats_saved. reflexivity.
Qed.

Lemma addRevenue_record (n a b c : Z) (ls : LocalStorage) :
  addRevenue n {| stats := record a b c; localStorage := ls |}
  = Returns tt (saved (record a b (c + n)) ls).
Proof.
  unfold addRevenue, bind.
  change (add_assign "totalRevenue" n {| stats := record a b c; localStorage := ls |})
    with (Returns (S := world) tt {| stats := record a b (c + n); localStorage := ls |}).
  cbv iota beta. rewrite saveStats_saved. reflexivity.
Qed.

Lemma resetStats_saved (w : world) :
  resetStats w = Returns tt (saved defaults (localStorage w)).
Proof.
  unfold resetStats, bind, set_stats, modify.
  rewrite saveStats_saved. reflexivity.
Qed.

(** *** The invariant of the reachable worlds *)

Lemma stringify_record_nonempty (a b c : Z) : stringify (record a b c) <> "".
Proof. rewrite stringify_record. discriminate. Qed.

Lemma stored_ok_saved (a b c : Z) (ls : LocalStorage) :
  stored_ok ls -> well_formed (saved (record a b c) ls).
Proof.
  intros Hls. split; simpl; [eauto|].
  destruct (writable ls); [|done].
  right. exists a, b, c. apply lookup_insert_eq.
Qed.

Lemma loadStats_well_formed (w : world) :
  well_formed w -> exists w', loadStats w = Returns tt w' /\ well_formed w'.
Proof.
  intros [Hstats Hls].
  destruct (readable (localStorage w)) eqn:Hr.
  - destruct Hls as [Hnone|(a & b & c & Hsome)].
    + exists w. split; [by apply loadStats_absent|]. split; auto. by left.
    + exists {| stats := record a b c; localStorage := localStorage w |}.
      split.
      * apply (loadStats_parsed w _ _ Hr Hsome).
        -- apply stringify_record_nonempty.
        -- apply JSON_roundtrip_record.
      * split; simpl; eauto. right. eauto.
  - exists w. split; [by apply loadStats_unreadable|]. by split.
Qed.

Lemma init_well_formed (w : world) :
  well_formed w -> exists w', init w = Returns tt w' /\ well_formed w'.
Proof.
  intros Hw. destruct (loadStats_well_formed w Hw) as (w' & Hload & Hw').
  exists w'. split; [|done]. unfold init, bind. rewrite Hload.
  destruct Hw' as [(a & b & c & Hs) _]. destruct w' as [v ls].
  simpl in Hs. subst v. apply updateDisplay_record.
Qed.

Lemma step_well_formed (w : world) (o : op) :
  well_formed w -> exists w', step w o = Some w' /\ well_formed w'.
Proof.
  intros Hw. destruct o as [|n| |n| |r wr|]; simpl.
  - destruct (init_well_formed w Hw) as (w' & -> & Hw'). eauto.
  - destruct Hw as [(a & b & c & Hs) Hls]. destruct w as [v ls].
    simpl in *. subst v. rewrite incrementItemsScanned_record. simpl.
    eauto using stored_ok_saved.
  - destruct Hw as [(a & b & c & Hs) Hls]. destruct w as [v ls].
    simpl in *. subst v. rewrite incrementOrders_record. simpl.
    eauto using stored_ok_saved.
  - destruct Hw as [(a & b & c & Hs) Hls]. destruct w as [v ls].
    simpl in *. subst v. rewrite addRevenue_record. simpl.
    eauto using stored_ok_saved.
  - destruct Hw as [_ Hls]. rewrite resetStats_saved. simpl.
    eexists. split; [reflexivity|]. by apply stored_ok_saved.
  - eexists. split; [reflexivity|]. destruct Hw as [Hs Hls]. by split.
  - eexists. split; [reflexivity|]. destruct Hw as [_ Hls].
    split; [|done]. exists 0, 0, 0. reflexivity.
Qed.

(** From a well-formed world every sequence of operations runs inside
    the embedded fragment and ends in a well-formed world. *)
Lemma run_well_formed (ops : list op) (w : world) :
  well_formed w -> exists w', run ops w = Some w' /\ well_formed w'.
Proof.
  revert w. induction ops as [|o ops IH]; intros w Hw; simpl; [eauto|].
  destruct (step_well_formed w o Hw) as (w1 & -> & Hw1). by apply IH.
Qed.

Lemma boot_well_formed (ls : LocalStorage) : fresh ls -> well_formed (boot ls).
Proof. intros Hf. split; [by exists 0, 0, 0|by left]. Qed.

Lemma reachable_well_formed (w : world) : reachable w -> well_formed w.
Proof.
  intros (ls & ops & Hf & Hrun).
  destruct (run_well_formed ops (boot ls) (boot_well_formed ls Hf))
    as (w' & Hrun' & Hw').
  congruence.
Qed.

(** [loadStats] catches whatever its body throws. *)
Lemma loadStats_never_throws (w w' : world) (message : string) :
  loadStats w <> Throws message w'.
Proof.
  unfold loadStats, try_catch.
  destruct (bind _ _ w); discriminate.
Qed.

(** C7: Stats survives a restart.  For every world reachable from a first
    start by the public operations (with restarts and storage failures in
    between), the three counters are integers, and when the storage takes
    the write and gives it back, [saveStats()] followed by a restart of
    the page and [loadStats()] (or the whole [init()]) leaves [stats] with
    exactly the counters it had. *)
Theorem stats_survive_restart (w : world) :
  reachable w ->
  writable (localStorage w) = true ->
  readable (localStorage w) = true ->
  exists (a b c : Z) (w1 w2 : world),
    itemsScanned w = Some a /\ ordersCompleted w = Some b
    /\ totalRevenue w = Some c
    /\ saveStats w = Returns tt w1
    /\ loadStats (boot (localStorage w1)) = Returns tt w2
    /\ init (boot (localStorage w1)) = Returns tt w2
    /\ stats w2 = stats w
    /\ itemsScanned w2 = Some a /\ ordersCompleted w2 = Some b
    /\ totalRevenue w2 = Some c.
Proof.
  intros Hreach Hwr Hrd.
  destruct (reachable_well_formed w Hreach) as [(a & b & c & Hs) _].
  destruct w as [v ls]. simpl in *. subst v.
  exists a, b, c, (saved (record a b c) ls),
    {| stats := record a b c;
       localStorage := localStorage (saved (record a b c) ls) |}.
  assert (Hload : loadStats (boot (localStorage (saved (record a b c) ls)))
                  = Returns tt
                      {| stats := record a b c;
                         localStorage := localStorage (saved (record a b c) ls) |}).
  { apply (loadStats_parsed (boot (localStorage (saved (record a b c) ls)))
             (stringify (record a b c))).
    - simpl. rewrite Hwr. exact Hrd.
    - simpl. rewrite Hwr. apply lookup_insert_eq.
    - apply stringify_record_nonempty.
    - apply JSON_roundtrip_record. }
  repeat split; try reflexivity.
  - apply saveStats_saved.
  - exact Hload.
  - unfold init, bind. rewrite Hload. reflexivity.
Qed.

(** The world after one scan on a first start survives a restart. *)
Lemma stats_survive_restart_witness :
  let ls := {| contents := ∅; readable := true; writable := true |} in
  let w := saved (record 1 0 0) ls in
  exists (a b c : Z) (w1 w2 : world),
    itemsScanned w = Some a /\ ordersCompleted w = Some b
    /\ totalRevenue w = Some c
    /\ saveStats w = Returns tt w1
    /\ loadStats (boot (localStorage w1)) = Returns tt w2
    /\ init (boot (localStorage w1)) = Returns tt w2
    /\ stats w2 = stats w
    /\ itemsScanned w2 = Some a /\ ordersCompleted w2 = Some b
    /\ totalRevenue w2 = Some c.
Proof.
  intros ls w. apply stats_survive_restart.
  - exists ls, [IncrementItemsScanned 1]. split; reflexivity.
  - reflexivity.
  - reflexivity.
Defined.

(** Where the fallback works: when the storage cannot be read, the key
    is missing or empty, or the stored text is one the parser embedded
    here rejects as not being JSON, [loadStats()] returns normally and
    leaves [stats] as it was, and at startup [init()] returns normally
    with all three counters at zero. *)
Theorem stats_load_failure_falls_back (ls : LocalStorage) :
  absent_or_unparseable ls ->
  (forall v : json,
      loadStats {| stats := v; localStorage := ls |}
      = Returns tt {| stats := v; localStorage := ls |})
  /\ exists w : world,
       init (boot ls) = Returns tt w
       /\ itemsScanned w = Some 0 /\ ordersCompleted w = Some 0
       /\ totalRevenue w = Some 0
       /\ localStorage w = ls.
Proof.
  intros Hfail.
  assert (Hload : forall v : json,
             loadStats {| stats := v; localStorage := ls |}
             = Returns tt {| stats := v; localStorage := ls |}).
  { intros v. destruct Hfail as [Hr|[Hnone|[Hempty|(text & Htext & Hp)]]].
    - by apply loadStats_unreadable.
    - by apply loadStats_absent.
    - by apply loadStats_empty.
    - by apply (loadStats_syntax_error _ text). }
  split; [exact Hload|].
  exists (boot ls). repeat split.
  unfold init, bind, boot. rewrite Hload. reflexivity.
Qed.

(** A snapshot cut short while being written is not JSON. *)
Lemma stats_load_failure_falls_back_witness :
  let ls := {| contents := {[ STORAGE_KEY := "{itemsScanned:5,ordersCo" ]};
               readable := true; writable := true |} in
  absent_or_unparseable ls
  /\ exists w : world,
       init (boot ls) = Returns tt w
       /\ itemsScanned w = Some 0 /\ ordersCompleted w = Some 0
       /\ totalRevenue w = Some 0
       /\ localStorage w = ls.
Proof.
  intros ls.
  assert (Hfail : absent_or_unparseable ls).
  { right; right; right. exists "{itemsScanned:5,ordersCo".
    split; [apply lookup_singleton_eq|reflexivity]. }
  split; [exact Hfail|].
  exact (proj2 (stats_load_failure_falls_back ls Hfail)).
Defined.

(** C8, evaluated: the fallback to zeros stops short of corrupt data
    that is still JSON.  With the empty object stored under the key, which
    is no snapshot of the three counters, [loadStats()] parses it without
    an exception and makes it the value of [stats]; no counter is zero
    (none is there), and the display update that follows in [init()]
    throws a [TypeError] to the caller of [init()].  The [try]/[catch] of
    [loadStats()] guards [getItem] and [JSON.parse] only; the parsed value
    is never checked. *)
Lemma stats_corrupt_object_is_adopted :
  let ls := {| contents := {[ STORAGE_KEY := "{}" ]};
               readable := true; writable := true |} in
  (forall a b c : Z, stringify (record a b c) <> "{}")
  /\ loadStats (boot ls) = Returns tt {| stats := JObj []; localStorage := ls |}
  /\ init (boot ls) = Throws "TypeError" {| stats := JObj []; localStorage := ls |}
  /\ ~ (exists w : world,
          init (boot ls) = Returns tt w
          /\ itemsScanned w = Some 0 /\ ordersCompleted w = Some 0
          /\ totalRevenue w = Some 0).
Proof.
  intros ls.
  assert (Hload : loadStats (boot ls)
                  = Returns tt {| stats := JObj []; localStorage := ls |}).
  { apply (loadStats_parsed (boot ls) "{}");
      [reflexivity|apply lookup_singleton_eq|discriminate|reflexivity]. }
  assert (Hinit : init (boot ls)
                  = Throws "TypeError" {| stats := JObj []; localStorage := ls |}).
  { unfold init, bind. rewrite Hload. reflexivity. }
  repeat split; try assumption.
  - intros a b c. rewrite stringify_record. discriminate.
  - intros (w & Hw & _). rewrite Hinit in Hw. discriminate.
Qed.

End StatsFacts.

(* --------------------------------------------------------------------- *)
(** ** Export and order completion                                        *)
(* --------------------------------------------------------------------- *)

Section ExportFacts.

Lemma exportOrder_success (e : Exporter.env) (orderData : Cart.OrderData)
    (files : Exporter.downloads) :
  Exporter.download_error e = None ->
  Exporter.exportOrder e orderData files
  = Returns
      {| Exporter.success := true;
         Exporter.result_orderId := Some (Exporter.generateOrderId e);
         Exporter.filename :=
           Some ("order_" +:+ Exporter.generateOrderId e +:+ ".json");
         Exporter.error := None |}
      (files ++
       [("order_" +:+ Exporter.generateOrderId e +:+ ".json",
         {| Exporter.orderId := Exporter.generateOrderId e;
            Exporter.timestamp := Exporter.iso_now e;
            Exporter.items := Cart.od_items orderData;
            Exporter.total := Cart.od_total orderData;
            Exporter.itemsCount := Cart.od_itemsCount orderData |})]).
Proof.
  intros Hok. unfold Exporter.exportOrder, try_catch, bind, Exporter.downloadJSON.
  rewrite Hok. reflexivity.
Qed.

Lemma exportOrder_failure (e : Exporter.env) (orderData : Cart.OrderData)
    (files : Exporter.downloads) (message : string) :
  Exporter.download_error e = Some message ->
  Exporter.exportOrder e orderData files
  = Returns
      {| Exporter.success := false; Exporter.result_orderId := None;
         Exporter.filename := None; Exporter.error := Some message |}
      files.
Proof.
  intros Herr. unfold Exporter.exportOrder, try_catch, bind, Exporter.downloadJSON.
  rewrite Herr. reflexivity.
Qed.

(** C9: exporting with an empty cart fails.  [exportCurrentCart()]
    returns the failure result whose [error] is "Cart is empty" and
    hands no file to the browser; the order-completion handler, the
    other path that exports the cart, returns on an empty cart before
    exporting anything and leaves the whole state as it was. *)
Theorem export_empty_cart_fails (e : Exporter.env) (cart : Cart.state)
    (files : Exporter.downloads) :
  Cart.items cart = [] ->
  Exporter.exportCurrentCart e cart files
  = Returns
      {| Exporter.success := false; Exporter.result_orderId := None;
         Exporter.filename := None; Exporter.error := Some "Cart is empty" |}
      files
  /\ forall (a : App.state) (confirmed : bool),
       App.cart a = cart -> App.completeOrder confirmed e a = Returns tt a.
Proof.
  intros Hempty. split.
  - unfold Exporter.exportCurrentCart, Cart.getOrderData, Cart.getItems.
    simpl. rewrite Hempty. reflexivity.
  - intros a confirmed Hcart. unfold App.completeOrder, bind, get_state.
    unfold Cart.getOrderData, Cart.getItems. simpl.
    rewrite Hcart, Hempty. reflexivity.
Qed.

Lemma export_empty_cart_fails_witness :
  let e := {| Exporter.date_now := "1700000000000";
              Exporter.random_suffix := "k3x9qa";
              Exporter.iso_now := "2023-11-14T22:13:20.000Z";
              Exporter.download_error := None |} in
  Exporter.exportCurrentCart e Cart.initial []
  = Returns
      {| Exporter.success := false; Exporter.result_orderId := None;
         Exporter.filename := None; Exporter.error := Some "Cart is empty" |}
      [].
Proof.
  intros e. exact (proj1 (export_empty_cart_fails e Cart.initial [] eq_refl)).
Defined.

(** X10: With something in the cart and a working download,
    [exportCurrentCart] succeeds and hands over exactly one file, which
    carries the cart's items and their total. *)
Lemma exportCurrentCart_nonempty (e : Exporter.env) (cart : Cart.state)
    (files : Exporter.downloads) :
  Cart.items cart <> [] ->
  Exporter.download_error e = None ->
  exists r name data,
    Exporter.exportCurrentCart e cart files = Returns r (files ++ [(name, data)])
    /\ Exporter.success r = true
    /\ Exporter.items data = Cart.items cart
    /\ Exporter.total data = Cart.getTotal cart.
Proof.
  intros Hne Hok. unfold Exporter.exportCurrentCart.
  destruct (Cart.items cart) as [|item rest] eqn:Hitems; [done|].
  unfold Cart.getOrderData at 1, Cart.getItems. simpl. rewrite Hitems. simpl.
  rewrite exportOrder_success by assumption.
  eexists _, _, _. split; [reflexivity|]. simpl.
  unfold Cart.getItems. by rewrite Hitems.
Qed.

(** The emptiness check lives in [exportCurrentCart] (and in the
    order-completion handler), not in [exportOrder]: handed the snapshot of
    an empty cart directly, [exportOrder] writes a file with no items. *)
Example exportOrder_does_not_check :
  let e := {| Exporter.date_now := "1700000000000";
              Exporter.random_suffix := "k3x9qa";
              Exporter.iso_now := "2023-11-14T22:13:20.000Z";
              Exporter.download_error := None |} in
  exists r file,
    Exporter.exportOrder e (Cart.getOrderData Cart.initial) [] = Returns r [file]
    /\ Exporter.success r = true
    /\ Exporter.items (snd file) = [].
Proof.
  intros e. eexists _, _. split; [|split].
  - rewrite exportOrder_success by reflexivity. reflexivity.
  - reflexivity.
  - reflexivity.
Qed.

End ExportFacts.

Section OrderCompletion.

Lemma bind_returns {S A B : Type} (m : M S A) (k : A -> M S B)
    (s s' : S) (a : A) :
  m s = Returns a s' -> bind m k s = k a s'.
Proof. intros H. unfold bind. by rewrite H. Qed.

Lemma zoom_returns {S T A : Type} (proj : T -> S) (upd : S -> T -> T)
    (m : M S A) (t : T) (a : A) (s' : S) :
  m (proj t) = Returns a s' -> zoom proj upd m t = Returns a (upd s' t).
Proof. intros H. unfold zoom. by rewrite H. Qed.

(** The state a confirmed, successfully exported order leaves behind. *)
Lemma completeOrder_success (e : Exporter.env) (cart : Cart.state)
    (i o r : Z) (ls : Stats.LocalStorage) (det : Detection.state)
    (files : Exporter.downloads) (scan : bool)
    (cur : list Detection.DetectionResult) :
  Cart.items cart <> [] ->
  Exporter.download_error e = None ->
  App.completeOrder true e
    {| App.cart := cart;
       App.stats := {| Stats.stats := Stats.record i o r;
                       Stats.localStorage := ls |};
       App.detection := det; App.files := files;
       App.continuousScanActive := scan; App.currentDetections := cur |}
  = Returns tt
      {| App.cart := Cart.clearCart cart;
         App.stats :=
           Stats.saved (Stats.record i (o + 1) (r + Cart.getTotal cart))
             (Stats.localStorage (Stats.saved (Stats.record i (o + 1) r) ls));
         App.detection :=
           if scan then Detection.stopContinuousDetection det else det;
         App.files := files ++ [App.order_file e cart];
         App.continuousScanActive := false;
         App.currentDetections := [] |}.
Proof.
  intros Hne Hok.
  unfold App.completeOrder.
  erewrite bind_returns by reflexivity.
  cbn [App.cart App.continuousScanActive].
  assert (Hlen : (length (Cart.od_items (Cart.getOrderData cart)) =? 0)%nat
                 = false).
  { unfold Cart.getOrderData, Cart.getItems. simpl.
    destruct (Cart.items cart); [done|reflexivity]. }
  rewrite Hlen. cbn [negb].
  assert (Hstop :
    (if scan then App.stopContinuousScan else ret tt)
      {| App.cart := cart;
         App.stats := {| Stats.stats := Stats.record i o r;
                         Stats.localStorage := ls |};
         App.detection := det; App.files := files;
         App.continuousScanActive := scan; App.currentDetections := cur |}
    = Returns tt
        {| App.cart := cart;
           App.stats := {| Stats.stats := Stats.record i o r;
                           Stats.localStorage := ls |};
           App.detection :=
             if scan then Detection.stopContinuousDetection det else det;
           App.files := files;
           App.continuousScanActive := false; App.currentDetections := cur |}).
  { destruct scan; reflexivity. }
  erewrite bind_returns by exact Hstop.
  erewrite bind_returns;
    [|apply zoom_returns, exportOrder_success, Hok].
  cbn [Exporter.success].
  erewrite bind_returns;
    [|apply zoom_returns, incrementOrders_record].
  erewrite bind_returns;
    [|apply zoom_returns, addRevenue_record].
  erewrite bind_returns by reflexivity.
  reflexivity.
Qed.

Lemma sum_prices_nonneg (l : list Cart.CartItem) :
  Forall (fun item => 0 <= Cart.price item) l -> 0 <= Cart.sum_prices l.
Proof. induction 1; simpl; lia. Qed.

(** C5: completing an order.  On a non-empty cart of total [T], with the
    order confirmed and the export succeeding, and the stats in a state
    the public operations can reach, the handler returns normally;
    [ordersCompleted] has gone up by exactly 1 and [totalRevenue] by
    exactly [T], [itemsScanned] is unchanged, the cart is empty, and one
    order file carrying the items and the total has been written.
    Revenue does not go down when no price in the cart is negative. *)
Theorem complete_order_updates_stats (e : Exporter.env) (a : App.state) :
  Cart.items (App.cart a) <> [] ->
  Exporter.download_error e = None ->
  Stats.reachable (App.stats a) ->
  exists (i o r : Z) (a' : App.state),
    Stats.itemsScanned (App.stats a) = Some i
    /\ Stats.ordersCompleted (App.stats a) = Some o
    /\ Stats.totalRevenue (App.stats a) = Some r
    /\ App.completeOrder true e a = Returns tt a'
    /\ Stats.itemsScanned (App.stats a') = Some i
    /\ Stats.ordersCompleted (App.stats a') = Some (o + 1)
    /\ Stats.totalRevenue (App.stats a')
       = Some (r + Cart.getTotal (App.cart a))
    /\ Cart.items (App.cart a') = []
    /\ Cart.getItemCount (App.cart a') = O
    /\ App.files a' = App.files a ++ [App.order_file e (App.cart a)]
    /\ (Forall (fun item => 0 <= Cart.price item) (Cart.items (App.cart a)) ->
        r <= r + Cart.getTotal (App.cart a)).
Proof.
  intros Hne Hok Hreach.
  destruct (reachable_well_formed _ Hreach) as [(i & o & r & Hs) _].
  destruct a as [cart [v ls] det files scan cur]. simpl in *. subst v.
  exists i, o, r. eexists.
  split; [reflexivity|]. split; [reflexivity|]. split; [reflexivity|].
  split; [by apply completeOrder_success|].
  repeat split.
  intros Hprices. rewrite getTotal_sum.
  pose proof (sum_prices_nonneg _ Hprices). lia.
Qed.

(** Two coffees and a water, 230 DZD, completed on a first start. *)
Lemma complete_order_updates_stats_witness :
  let e := {| Exporter.date_now := "1700000000000";
              Exporter.random_suffix := "k3x9qa";
              Exporter.iso_now := "2023-11-14T22:13:20.000Z";
              Exporter.download_error := None |} in
  let cart :=
    Cart.run [Cart.AddItem Detection.coffee None "t0";
              Cart.AddItem Detection.coffee None "t1";
              Cart.AddItem Detection.water None "t2"] Cart.initial in
  let ls := {| Stats.contents := ∅; Stats.readable := true;
               Stats.writable := true |} in
  let a := {| App.cart := cart; App.stats := Stats.boot ls;
              App.detection := Detection.initial; App.files := [];
              App.continuousScanActive := false;
              App.currentDetections := [] |} in
  Cart.getTotal cart = 230
  /\ exists (i o r : Z) (a' : App.state),
       Stats.itemsScanned (App.stats a) = Some i
       /\ Stats.ordersCompleted (App.stats a) = Some o
       /\ Stats.totalRevenue (App.stats a) = Some r
       /\ App.completeOrder true e a = Returns tt a'
       /\ Stats.itemsScanned (App.stats a') = Some i
       /\ Stats.ordersCompleted (App.stats a') = Some (o + 1)
       /\ Stats.totalRevenue (App.stats a')
          = Some (r + Cart.getTotal (App.cart a))
       /\ Cart.items (App.cart a') = []
       /\ Cart.getItemCount (App.cart a') = O
       /\ App.files a' = App.files a ++ [App.order_file e (App.cart a)]
       /\ (Forall (fun item => 0 <= Cart.price item) (Cart.items (App.cart a)) ->
           r <= r + Cart.getTotal (App.cart a)).
Proof.
  intros e cart ls a. split; [reflexivity|].
  apply (complete_order_updates_stats e a).
  - discriminate.
  - reflexivity.
  - exists ls, []. split; reflexivity.
Defined.

(** The scenario in numbers: from zero orders and zero revenue, the
    230 DZD order leaves one order, 230 DZD of revenue, an empty cart,
    and the same snapshot in the storage. *)
Example complete_order_230 :
  let e := {| Exporter.date_now := "1700000000000";
              Exporter.random_suffix := "k3x9qa";
              Exporter.iso_now := "2023-11-14T22:13:20.000Z";
              Exporter.download_error := None |} in
  let cart :=
    Cart.run [Cart.AddItem Detection.coffee None "t0";
              Cart.AddItem Detection.coffee None "t1";
              Cart.AddItem Detection.water None "t2"] Cart.initial in
  let ls := {| Stats.contents := ∅; Stats.readable := true;
               Stats.writable := true |} in
  let a := {| App.cart := cart; App.stats := Stats.boot ls;
              App.detection := Detection.initial; App.files := [];
              App.continuousScanActive := false;
              App.currentDetections := [] |} in
  exists a',
    App.completeOrder true e a = Returns tt a'
    /\ Stats.stats (App.stats a') = Stats.record 0 1 230
    /\ Stats.contents (Stats.localStorage (App.stats a')) !! Stats.STORAGE_KEY
       = Some (Json.stringify (Stats.record 0 1 230))
    /\ Cart.items (App.cart a') = []
    /\ Cart.itemIdCounter (App.cart a') = 3.
Proof.
  intros e cart ls a. eexists. split.
  - apply completeOrder_success; [discriminate|reflexivity].
  - repeat split.
Qed.

End OrderCompletion.

(* --------------------------------------------------------------------- *)
(** ** Detection: the pipeline                                            *)
(* --------------------------------------------------------------------- *)

Section DetectionFacts.
Import Detection.

Lemma Qltb_false (x y : Q) : Qltb x y = false <-> (y <= x)%Q.
Proof.
  unfold Qltb. rewrite negb_false_iff. apply Qle_bool_iff.
Qed.

Lemma Qltb_true (x y : Q) : Qltb x y = true <-> ~ (y <= x)%Q.
Proof.
  unfold Qltb. rewrite negb_true_iff, <- Qle_bool_iff.
  destruct (Qle_bool y x); split; intros; congruence.
Qed.

(** The loop keeps the largest probability seen so far. *)
Lemma argmax_from_max (probabilities : list Q) (i : nat) (maxProb : Q)
    (maxIndex : nat) :
  (maxProb <= fst (argmax_from probabilities i maxProb maxIndex))%Q
  /\ Forall (fun p => (p <= fst (argmax_from probabilities i maxProb maxIndex))%Q)
       probabilities.
Proof.
  revert i maxProb maxIndex.
  induction probabilities as [|p rest IH]; intros i maxProb maxIndex; simpl.
  - split; [apply Qle_refl|constructor].
  - destruct (Qltb maxProb p) eqn:Hlt.
    + destruct (IH (S i) p i) as [Hp Hrest]. split; [|by constructor].
      apply Qltb_true in Hlt. apply Qnot_le_lt in Hlt.
      eapply Qle_trans; [apply Qlt_le_weak, Hlt|exact Hp].
    + destruct (IH (S i) maxProb maxIndex) as [Hm Hrest]. split; [done|].
      constructor; [|done]. apply Qltb_false in Hlt.
      eapply Qle_trans; [exact Hlt|exact Hm].
Qed.

(** The winning confidence is the largest probability (or 0 when none
    is positive). *)
Lemma winner_confidence_max (probabilities : list Q) :
  (0 <= snd (winner probabilities))%Q
  /\ Forall (fun p => (p <= snd (winner probabilities))%Q) probabilities.
Proof.
  unfold winner, argmax.
  pose proof (argmax_from_max probabilities O 0%Q O) as H.
  destruct (argmax_from probabilities O 0%Q O) as [maxProb maxIndex]. exact H.
Qed.

(** [mapClassToProduct] finds a product exactly when the label matches
    a catalog entry. *)
Lemma mapClassToProduct_Some (label : string) (p : Product) :
  mapClassToProduct label = Some p ->
  p ∈ PRODUCTS
  /\ toLowerCase (trim (p_modelClass p)) = toLowerCase (trim label).
Proof.
  unfold mapClassToProduct. intros Hfind.
  apply find_some in Hfind as [Hin Heq].
  split; [by apply list_elem_of_In|]. by apply String.eqb_eq.
Qed.



(** The shape of [classify]'s result, case by case. *)
Lemma classify_cases (v : VideoElement) (probabilities : list Q) :
  let label := fst (winner probabilities) in
  let conf := snd (winner probabilities) in
  (Qltb conf MIN_CONFIDENCE = true /\ classify v probabilities = [])
  \/ (Qltb conf MIN_CONFIDENCE = false /\ label = "empty"
      /\ classify v probabilities = [])
  \/ (Qltb conf MIN_CONFIDENCE = false /\ label <> "empty"
      /\ mapClassToProduct label = None /\ classify v probabilities = [])
  \/ (Qltb conf MIN_CONFIDENCE = false /\ label <> "empty"
      /\ exists p, mapClassToProduct label = Some p
           /\ classify v probabilities
              = [ {| product := p; className := label; confidence := conf;
                     displayName := p_nameAr p +:+ " / " +:+ p_nameEn p;
                     boundingBox := box_for v |} ]).
Proof.
  unfold classify. destruct (winner probabilities) as [label conf]. simpl.
  destruct (Qltb conf MIN_CONFIDENCE); [by left|]. right.
  destruct (String.eqb_spec label "empty") as [->|Hne]; [by left|]. right.
  destruct (mapClassToProduct label) as [p|]; [right|left]; eauto.
Qed.

Lemma catalog_prices_positive : Forall (fun p => 0 < p_price p) PRODUCTS.
Proof. repeat constructor. Qed.

(** Whatever [classify] emits is a catalog product, so its price is
    positive. *)
Lemma classify_product (v : VideoElement) (probabilities : list Q)
    (d : DetectionResult) :
  d ∈ classify v probabilities ->
  product d ∈ PRODUCTS /\ 0 < p_price (product d).
Proof.
  intros Hd.
  destruct (classify_cases v probabilities)
    as [[_ Heq]|[(_ & _ & Heq)|[(_ & _ & _ & Heq)|(_ & _ & p & Hp & Heq)]]];
    rewrite Heq in Hd; try (by inversion Hd).
  apply list_elem_of_singleton in Hd. subst d. simpl.
  apply mapClassToProduct_Some in Hp as [Hin _]. split; [done|].
  pose proof catalog_prices_positive as Hpos.
  rewrite Forall_forall in Hpos. by apply Hpos.
Qed.



Example detect_coffee :
  detectObjects ready (Some playing)
    (Probabilities [82 # 100; 10 # 100; 8 # 100]%Q)
  = Ok [ {| product := coffee; className := "caffee";
            confidence := (82 # 100)%Q;
            displayName := p_nameAr coffee +:+ " / " +:+ p_nameEn coffee;
            boundingBox := {| box_x := 176; box_y := 96;
                              box_width := 288; box_height := 288 |} |} ].
Proof. reflexivity. Qed.

Example detect_empty_wins :
  detectObjects ready (Some playing)
    (Probabilities [3 # 10; 3 # 10; 4 # 10]%Q) = Ok []
  /\ winner [3 # 10; 3 # 10; 4 # 10]%Q = ("empty", (4 # 10)%Q).
Proof. split; reflexivity. Qed.

(** The "empty" class is excluded whatever its confidence. *)
Example detect_empty_confident :
  detectObjects ready (Some playing)
    (Probabilities [5 # 100; 5 # 100; 9 # 10]%Q) = Ok [].
Proof. reflexivity. Qed.

Example mapClassToProduct_trims :
  mapClassToProduct "Caffee " = Some coffee
  /\ mapClassToProduct "caffee" = Some coffee
  /\ mapClassToProduct " WATER" = Some water
  /\ mapClassToProduct "unknown" = None.
Proof. repeat split. Qed.

(** *** Errors *)





(** X17: There is no unload: once set, the load flag stays set. *)
Lemma modelLoaded_stable (events : list event) (st : state) :
  modelLoaded st = true -> modelLoaded (run events st) = true.
Proof.
  revert st. induction events as [|e events IH]; intros st Hst; simpl; auto.
  apply IH.
  destruct e as [tf| | |callback video| |t video|k inf]; simpl.
  - unfold loadModel_call. by rewrite Hst.
  - unfold loadModel_resolved. by destruct (modelLoading st).
  - unfold loadModel_rejected. by destruct (modelLoading st).
  - unfold startContinuousDetection.
    destruct (truthy _); [done|]. destruct (negb (modelLoaded st)); [done|].
    by destruct video.
  - unfold stopContinuousDetection.
    destruct (continuousDetectionId st) as [t|]; [|done]. by destruct (negb _).
  - unfold timer_fires. destruct (bool_decide _); [|done]. by destruct video.
  - unfold detectFrame_resume. destruct (inflight st !! k); [|done].
    destruct (detectObjects _ _ _); [|done].
    by destruct (continuousDetectionCallback _).
Qed.



End DetectionFacts.

(* --------------------------------------------------------------------- *)
(** ** Detection: the poller                                              *)
(* --------------------------------------------------------------------- *)

Section PollerFacts.
Import Detection.

(** *** What does hold *)

(** While the callback variable is [null] and nobody calls start, no
    callback is invoked, whatever fires or settles. *)
Lemma cleared_callback_is_silent (events : list event) (st : state) :
  continuousDetectionCallback st = None ->
  forallb not_start events = true ->
  continuousDetectionCallback (run events st) = None
  /\ invocations (run events st) = invocations st.
Proof.
  revert st. induction events as [|e events IH]; intros st Hcb Hev; simpl.
  - done.
  - simpl in Hev. apply andb_true_iff in Hev as [He Hev].
    assert (Hstep : continuousDetectionCallback (step st e) = None
                    /\ invocations (step st e) = invocations st).
    { destruct e as [tf| | |callback video| |t video|k inf]; simpl.
      - unfold loadModel_call. destruct (modelLoaded st); [done|].
        destruct (modelLoading st); [done|]. by destruct tf.
      - unfold loadModel_resolved. by destruct (modelLoading st).
      - unfold loadModel_rejected. by destruct (modelLoading st).
      - discriminate.
      - unfold stopContinuousDetection.
        destruct (continuousDetectionId st); [|done]. by destruct (negb _).
      - unfold timer_fires. destruct (bool_decide _); [|done].
        by destruct video.
      - unfold detectFrame_resume. destruct (inflight st !! k); [|done].
        destruct (detectObjects _ _ _); [|done]. simpl. by rewrite Hcb. }
    destruct Hstep as [Hcb' Hinv'].
    destruct (IH (step st e) Hcb' Hev) as [Hcb'' Hinv''].
    split; congruence.
Qed.

(** X20: A stop that finds the handle set clears the callback, so from then
    on, until the next start, no callback is invoked, not even for a
    cycle still in flight. *)
Lemma effective_stop_silences (events : list event) (st : state) :
  truthy (continuousDetectionId st) = true ->
  forallb not_start events = true ->
  invocations (run events (stopContinuousDetection st))
  = invocations st.
Proof.
  intros Hid Hev.
  assert (Hstop : continuousDetectionCallback (stopContinuousDetection st) = None
                  /\ invocations (stopContinuousDetection st) = invocations st).
  { unfold stopContinuousDetection, truthy in *.
    destruct (continuousDetectionId st) as [t|]; [|discriminate].
    rewrite Hid. done. }
  destruct Hstop as [Hcb Hinv].
  destruct (cleared_callback_is_silent events _ Hcb Hev) as [_ ->]. done.
Qed.

(** X21: A stop between two cycles (the handle set, its timer the only one
    pending, nothing in flight) is final: the poller is idle, and no
    timer or detection is left to start anything. *)
Lemma stop_between_cycles_is_final (events : list event) (st : state) (t : Z) :
  continuousDetectionId st = Some t ->
  t <> 0 ->
  timers st = [t] ->
  inflight st = [] ->
  forallb loop_event events = true ->
  isContinuousDetectionRunning (stopContinuousDetection st) = false
  /\ run events (stopContinuousDetection st) = stopContinuousDetection st.
Proof.
  intros Hid Ht Htimers Hflight Hev.
  assert (Hstop : stopContinuousDetection st
                  = {| model := model st; modelLoading := modelLoading st;
                       modelLoaded := modelLoaded st;
                       continuousDetectionId := None;
                       continuousDetectionCallback := None;
                       timers := []; next_timer := next_timer st;
                       inflight := []; invocations := invocations st;
                       cycles := cycles st |}).
  { unfold stopContinuousDetection. rewrite Hid, Htimers, Hflight.
    destruct (Z.eqb_spec t 0); [done|]. simpl.
    rewrite Z.eqb_refl. reflexivity. }
  rewrite Hstop. split; [reflexivity|].
  clear Hstop. induction events as [|e events IH]; [reflexivity|].
  simpl in Hev. apply andb_true_iff in Hev as [He Hev].
  simpl. destruct e; try discriminate; simpl; by apply IH.
Qed.

(** *** What does not *)

(** C3, evaluated: [stop()] called while the first cycle is in flight.
    The handle is still [null] then, so the stop does nothing at all:
    the callback stays installed, and when the detection settles the
    callback is invoked with its result and the next cycle is scheduled. *)
Theorem stop_during_first_cycle_is_ignored :
  let started := run [Start 7%nat (Some playing)] ready in
  let stopped := step started Stop in
  let settled := step stopped (DetectionSettles 0 coffee_frame) in
  continuousDetectionId started = None
  /\ isContinuousDetectionRunning started = false
  /\ length (inflight started) = 1%nat
  /\ stopped = started
  /\ invocations stopped = []
  /\ invocations settled = [(7%nat, [coffee_detection])]
  /\ timers settled = [1]
  /\ isContinuousDetectionRunning settled = true.
Proof. repeat split. Qed.

(** C2, evaluated: [stop()] called while a later cycle is in flight.
    The stop clears the handle and the callback, but the cycle in flight,
    once settled, schedules the next one unconditionally: the poller
    reports running again and a further detection cycle starts, with no
    call of start in between. *)
Theorem stop_during_later_cycle_is_undone :
  let running :=
    run [Start 7%nat (Some playing); DetectionSettles 0 coffee_frame;
         TimerFires 1 (Some playing)] ready in
  let stopped := step running Stop in
  let settled := step stopped (DetectionSettles 0 coffee_frame) in
  let fired := step settled (TimerFires 2 (Some playing)) in
  isContinuousDetectionRunning running = true
  /\ length (inflight running) = 1%nat
  /\ cycles running = 2%nat
  /\ isContinuousDetectionRunning stopped = false
  /\ continuousDetectionCallback stopped = None
  /\ timers stopped = []
  /\ isContinuousDetectionRunning settled = true
  /\ continuousDetectionId settled = Some 2
  /\ timers settled = [2]
  /\ invocations settled = invocations running
  /\ cycles fired = 3%nat
  /\ length (inflight fired) = 1%nat.
Proof. repeat split. Qed.

(** In that state a new start is refused, the handle being set, so the
    cycles go on with no callback to receive them. *)
Example start_after_undone_stop_is_refused :
  let settled :=
    run [Start 7%nat (Some playing); DetectionSettles 0 coffee_frame;
         TimerFires 1 (Some playing); Stop;
         DetectionSettles 0 coffee_frame] ready in
  step settled (Start 8%nat (Some playing)) = settled
  /\ continuousDetectionCallback settled = None.
Proof. vm_compute. split; reflexivity. Qed.

End PollerFacts.

(* ===================================================================== *)
(** * Part III: further properties of the modules                         *)
(* ===================================================================== *)

(* --------------------------------------------------------------------- *)
(** ** Cart: order of the items, removal                                  *)
(* --------------------------------------------------------------------- *)

Section CartOrder.
Import Cart.

Lemma sorted_snoc (l : list Z) (x : Z) :
  StronglySorted Z.lt l -> Forall (fun y => y < x) l ->
  StronglySorted Z.lt (l ++ [x]).
Proof.
  induction 1 as [|y l Hl IH Hy]; intros Hlt; simpl.
  - repeat constructor.
  - apply Forall_cons in Hlt as [Hyx Hlt]. constructor; [by apply IH|].
    apply Forall_app. split; [done|]. by repeat constructor.
Qed.

Lemma sorted_sublist (l1 l2 : list Z) :
  l1 `sublist_of` l2 -> StronglySorted Z.lt l2 -> StronglySorted Z.lt l1.
Proof.
  induction 1 as [|x l1 l2 Hsub IH|x l1 l2 Hsub IH]; intros Hs.
  - constructor.
  - apply StronglySorted_inv in Hs as [Hs Hx]. constructor; [by apply IH|].
    rewrite Forall_forall in *. intros y Hy. apply Hx.
    by eapply elem_of_sublist.
  - apply StronglySorted_inv in Hs as [Hs _]. by apply IH.
Qed.

(** A strictly increasing list of integers that all lie in [(lo, hi]]
    has at most [hi - lo] elements. *)
Lemma sorted_length_bound (l : list Z) (lo hi : Z) :
  lo <= hi ->
  StronglySorted Z.lt l -> Forall (fun y => lo < y <= hi) l ->
  Z.of_nat (length l) <= hi - lo.
Proof.
  intros Hlohi Hs. revert lo Hlohi.
  induction Hs as [|y l Hl IH Hy]; intros lo Hlohi Hr; simpl; [lia|].
  apply Forall_cons in Hr as [Hyr Hr].
  assert (Hr' : Forall (fun z => y < z <= hi) l).
  { rewrite Forall_forall in *. intros z Hz.
    specialize (Hy z Hz). specialize (Hr z Hz). lia. }
  specialize (IH y ltac:(lia) Hr'). lia.
Qed.

Lemma ordered_step (s : state) (o : op) : ordered s -> ordered (step s o).
Proof.
  intros (Hs & Hr & Hc). destruct o as [product conf now|itemId|]; simpl.
  - split; [|split]; simpl.
    + rewrite fmap_app. apply sorted_snoc; [done|].
      rewrite Forall_fmap. eapply Forall_impl; [exact Hr|].
      simpl. intros it Hit. lia.
    + apply Forall_app. split.
      * eapply Forall_impl; [exact Hr|]. simpl. intros; lia.
      * apply Forall_singleton. simpl. lia.
    + lia.
  - unfold removeItem. destruct (findIndex _ _) as [index|]; [|done].
    split; [|split]; simpl; unfold splice1.
    + eapply sorted_sublist; [|exact Hs]. apply fmap_sublist, sublist_delete.
    + rewrite Forall_forall in *. intros it Hit. apply Hr.
      eapply elem_of_sublist; [exact Hit|apply sublist_delete].
    + done.
  - split; [|split]; simpl; [constructor|constructor|done].
Qed.

Lemma ordered_run (ops : list op) (s : state) : ordered s -> ordered (run ops s).
Proof.
  revert s. induction ops as [|o ops IH]; intros s Hs; simpl; auto.
  apply IH, ordered_step, Hs.
Qed.

Lemma ordered_initial : ordered initial.
Proof. split; [|split]; simpl; [constructor|constructor|lia]. Qed.

(** X1: The cart is an ordered list: after any sequence of calls the items
    stand in the order they were added, their identifiers strictly
    increasing along the list and lying between 1 and the counter; so the
    cart never holds more items than identifiers were issued. *)
Theorem cart_items_in_insertion_order (ops : list op) :
  let s := run ops initial in
  StronglySorted Z.lt (id <$> items s)
  /\ Forall (fun it => 1 <= id it <= itemIdCounter s) (items s)
  /\ Z.of_nat (getItemCount s) <= itemIdCounter s.
Proof.
  intros s. destruct (ordered_run ops initial ordered_initial) as (Hs & Hr & _).
  fold s in Hs, Hr. split; [done|]. split; [done|].
  unfold getItemCount.
  pose proof (counter_run ops initial) as Hc. fold s in Hc. simpl in Hc.
  pose proof (sorted_length_bound (id <$> items s) 0 (itemIdCounter s) Hc Hs)
    as Hb.
  rewrite length_fmap in Hb. rewrite Z.sub_0_r in Hb. apply Hb.
  rewrite Forall_fmap. eapply Forall_impl; [exact Hr|]. simpl. intros; lia.
Qed.

Lemma sorted_NoDup (l : list Z) : StronglySorted Z.lt l -> NoDup l.
Proof.
  induction 1 as [|y l Hl IH Hy]; constructor; [|done].
  intros Hin. rewrite Forall_forall in Hy. specialize (Hy y Hin). lia.
Qed.

Lemma filter_all {A} (P : A -> Prop) `{forall x, Decision (P x)} (l : list A) :
  Forall P l -> filter P l = l.
Proof.
  induction 1 as [|x l Hx Hl IH]; [done|].
  rewrite filter_cons_True by done. by rewrite IH.
Qed.

(** Removal by identifier on a cart whose identifiers are distinct. *)
Lemma removeItem_filter (itemId : Z) (s : state) :
  NoDup (id <$> items s) ->
  items (removeItem itemId s) = filter (fun it => id it <> itemId) (items s).
Proof.
  intros Hnd. unfold removeItem.
  destruct (findIndex _ _) as [index|] eqn:Hfi; simpl.
  - destruct (findIndex_Some _ _ _ Hfi) as (x & Hx & Hfx & _).
    apply Z.eqb_eq in Hfx. unfold splice1. rewrite delete_take_drop.
    rewrite (splice1_middle _ _ _ Hx) at 3.
    rewrite (splice1_middle _ _ _ Hx) in Hnd.
    rewrite fmap_app, fmap_cons in Hnd.
    apply NoDup_app in Hnd as (_ & Hdisj & Hnd2).
    apply NoDup_cons in Hnd2 as [Hnotin _].
    rewrite filter_app, filter_cons_False by (intros Hne; by apply Hne).
    rewrite !filter_all; [done| |].
    + apply Forall_forall. intros it Hit Heq. apply Hnotin.
      rewrite Hfx, <- Heq. by apply list_elem_of_fmap_2.
    + apply Forall_forall. intros it Hit Heq.
      apply (Hdisj (id it)); [by apply list_elem_of_fmap_2|].
      rewrite Heq, <- Hfx. by left.
  - symmetry. apply filter_all. apply Forall_forall. intros it Hit.
    pose proof (findIndex_None _ _ Hfi it Hit) as Hf. simpl in Hf.
    by apply Z.eqb_neq in Hf.
Qed.

(** X2: [removeItem(itemId)] on a cart built by the module: what is left is
    exactly the items carrying another identifier, in their order; an
    identifier that is not in the cart leaves the cart as it is; the
    counter is never touched. *)
Theorem removeItem_keeps_the_others (ops : list op) (itemId : Z) :
  let s := run ops initial in
  items (removeItem itemId s) = filter (fun it => id it <> itemId) (items s)
  /\ itemIdCounter (removeItem itemId s) = itemIdCounter s
  /\ (itemId ∉ (id <$> items s) -> removeItem itemId s = s).
Proof.
  intros s.
  destruct (ordered_run ops initial ordered_initial) as [Hs _]. fold s in Hs.
  split; [|split].
  - apply removeItem_filter, sorted_NoDup, Hs.
  - unfold removeItem. by destruct (findIndex _ _).
  - intros Hnot. unfold removeItem.
    destruct (findIndex _ _) as [index|] eqn:Hfi; [|done].
    destruct (findIndex_Some _ _ _ Hfi) as (x & Hx & Hfx & _).
    apply Z.eqb_eq in Hfx. exfalso. apply Hnot. rewrite <- Hfx.
    apply list_elem_of_fmap_2. by eapply list_elem_of_lookup_2.
Qed.

Lemma removeItem_keeps_the_others_witness :
  let s := run [AddItem Detection.coffee None "t0";
                AddItem Detection.water None "t1"] initial in
  removeItem 5 s = s.
Proof.
  intros s.
  destruct (removeItem_keeps_the_others
              [AddItem Detection.coffee None "t0";
               AddItem Detection.water None "t1"] 5) as (_ & _ & Hkeep).
  apply Hkeep. vm_compute. intros Hin.
  repeat (apply elem_of_cons in Hin as [Hin|Hin]; [discriminate|]).
  by apply elem_of_nil in Hin.
Defined.

(** X3: Adding an item and removing it again by the identifier [addItem]
    returned gives back the items (and the total) there were; only the
    counter has moved on. *)
Theorem addItem_then_removeItem (ops : list op) (product : Product)
    (conf : option Q) (now : string) :
  let s := run ops initial in
  let added := addItem product conf now s in
  let s' := removeItem (id (fst added)) (snd added) in
  items s' = items s
  /\ getTotal s' = getTotal s
  /\ itemIdCounter s' = itemIdCounter s + 1.
Proof.
  intros s added s'.
  destruct (ordered_run (ops ++ [AddItem product conf now]) initial
              ordered_initial) as [Hs _].
  unfold run in Hs. rewrite fold_left_app in Hs. simpl in Hs.
  fold (run ops initial) in Hs. fold s in Hs.
  destruct (ordered_run ops initial ordered_initial) as (_ & Hr & _).
  fold s in Hr.
  assert (Hitems : items s' = items s).
  { unfold s'. rewrite removeItem_filter by (by apply sorted_NoDup).
    unfold added. simpl. rewrite filter_app.
    rewrite filter_cons_False by (intros Hne; by apply Hne).
    rewrite filter_nil, app_nil_r. apply filter_all.
    eapply Forall_impl; [exact Hr|]. simpl. intros it Hit. lia. }
  split; [done|]. split.
  - unfold getTotal. by rewrite Hitems.
  - unfold s', removeItem. by destruct (findIndex _ _).
Qed.

End CartOrder.

(* --------------------------------------------------------------------- *)
(** ** Stats: accumulation, write-through, locality, reset                *)
(* --------------------------------------------------------------------- *)

Section StatsMore.
Import Json Stats.

Lemma run_increments (ops : list op) (a b c : Z) (ls : LocalStorage) :
  forallb is_increment ops = true ->
  exists ls',
    run ops {| stats := record a b c; localStorage := ls |}
    = Some {| stats := record (a + scanned_sum ops) (b + orders_count ops)
                         (c + revenue_sum ops);
              localStorage := ls' |}.
Proof.
  revert a b c ls. induction ops as [|o ops IH]; intros a b c ls Hops.
  - exists ls. simpl. by rewrite !Z.add_0_r.
  - simpl in Hops. apply andb_true_iff in Hops as [Ho Hops].
    destruct o as [|n| |n| |r wr|]; try discriminate; simpl.
    + rewrite incrementItemsScanned_record. unfold saved. simpl.
      edestruct (IH (a + n) b c) as [ls' Hrun]; [exact Hops|].
      rewrite Hrun. exists ls'. by rewrite Z.add_assoc.
    + rewrite incrementOrders_record. unfold saved. simpl.
      edestruct (IH a (b + 1) c) as [ls' Hrun]; [exact Hops|].
      rewrite Hrun. exists ls'. by rewrite Z.add_assoc.
    + rewrite addRevenue_record. unfold saved. simpl.
      edestruct (IH a b (c + n)) as [ls' Hrun]; [exact Hops|].
      rewrite Hrun. exists ls'. by rewrite Z.add_assoc.
    + edestruct (IH a b c) as [ls' Hrun]; [exact Hops|].
      rewrite Hrun. by exists ls'.
Qed.

(** X4: The counters add up.  From a page load, whatever the storage holds
    and whether or not it takes the writes, a sequence of
    [incrementItemsScanned(count)], [incrementOrders()] and
    [addRevenue(amount)] calls leaves [itemsScanned] at the sum of the
    counts, [ordersCompleted] at the number of [incrementOrders] calls, and
    [totalRevenue] at the sum of the amounts. *)
Theorem stats_counters_accumulate (ls : LocalStorage) (ops : list op) :
  forallb is_increment ops = true ->
  exists w,
    run ops (boot ls) = Some w
    /\ itemsScanned w = Some (scanned_sum ops)
    /\ ordersCompleted w = Some (orders_count ops)
    /\ totalRevenue w = Some (revenue_sum ops).
Proof.
  intros Hops. destruct (run_increments ops 0 0 0 ls Hops) as [ls' Hrun].
  eexists. split; [exact Hrun|]. repeat split.
Qed.

Lemma stats_counters_accumulate_witness :
  let ls := {| contents := ∅; readable := true; writable := false |} in
  let ops := [IncrementItemsScanned 1; IncrementItemsScanned 1; IncrementOrders;
              AddRevenue 130; StorageAccess true true; IncrementOrders;
              AddRevenue 100] in
  exists w,
    run ops (boot ls) = Some w
    /\ itemsScanned w = Some 2 /\ ordersCompleted w = Some 2
    /\ totalRevenue w = Some 230.
Proof.
  intros ls ops. exact (stats_counters_accumulate ls ops eq_refl).
Defined.

(** X5: Every mutation is written through.  In a reachable world each of
    [incrementItemsScanned], [incrementOrders], [addRevenue] and
    [resetStats] returns normally, with no exception reaching the caller;
    when the storage takes the write, the stored text is then the snapshot
    of the new [stats] and parses back to it; when it does not, the call
    still returns normally (the failure of [setItem] is swallowed) and the
    storage is left exactly as it was. *)
Theorem stats_mutation_written_through (w : world) (o : op) :
  reachable w ->
  is_mutation o = true ->
  exists (m : M world unit) (w' : world),
    call o = Some m
    /\ m w = Returns tt w'
    /\ step w o = Some w'
    /\ (writable (localStorage w) = true ->
        contents (localStorage w') !! STORAGE_KEY = Some (stringify (stats w'))
        /\ JSON_parse (stringify (stats w')) = Parsed (stats w'))
    /\ (writable (localStorage w) = false -> localStorage w' = localStorage w).
Proof.
  intros Hreach Ho.
  destruct (reachable_well_formed w Hreach) as [(a & b & c & Hs) _].
  destruct w as [v ls]. simpl in *. subst v.
  assert (Hsaved : forall a' b' c',
    (writable ls = true ->
     contents (localStorage (saved (record a' b' c') ls)) !! STORAGE_KEY
     = Some (stringify (stats (saved (record a' b' c') ls)))
     /\ JSON_parse (stringify (stats (saved (record a' b' c') ls)))
        = Parsed (stats (saved (record a' b' c') ls)))
    /\ (writable ls = false ->
        localStorage (saved (record a' b' c') ls) = ls)).
  { intros a' b' c'. split; intros Hw; simpl; rewrite Hw.
    - split; [apply lookup_insert_eq|apply JSON_roundtrip_record].
    - reflexivity. }
  destruct o as [|n| |n| |r wr|]; try discriminate; simpl.
  - exists (incrementItemsScanned n), (saved (record (a + n) b c) ls).
    rewrite incrementItemsScanned_record.
    split; [done|]. split; [done|]. split; [done|]. apply Hsaved.
  - exists incrementOrders, (saved (record a (b + 1) c) ls).
    rewrite incrementOrders_record.
    split; [done|]. split; [done|]. split; [done|]. apply Hsaved.
  - exists (addRevenue n), (saved (record a b (c + n)) ls).
    rewrite addRevenue_record.
    split; [done|]. split; [done|]. split; [done|]. apply Hsaved.
  - exists resetStats, (saved defaults ls).
    rewrite resetStats_saved.
    split; [done|]. split; [done|]. split; [done|]. apply (Hsaved 0 0 0).
Qed.

(** On a first start, with a storage that refuses writes: [addRevenue]
    returns normally and the storage is untouched. *)
Lemma stats_mutation_written_through_witness :
  let ls := {| contents := ∅; readable := true; writable := false |} in
  exists w',
    addRevenue 230 (boot ls) = Returns tt w'
    /\ step (boot ls) (AddRevenue 230) = Some w'
    /\ localStorage w' = ls.
Proof.
  intros ls.
  destruct (stats_mutation_written_through (boot ls) (AddRevenue 230))
    as (m & w' & Hcall & Hret & Hstep & _ & Hkept).
  - exists ls, []. split; reflexivity.
  - reflexivity.
  - injection Hcall as <-. exists w'.
    split; [exact Hret|]. split; [exact Hstep|]. by apply Hkept.
Defined.

(** *** Locality *)

Lemma same_elsewhere_refl (ls : LocalStorage) : same_elsewhere ls ls.
Proof. by repeat split. Qed.

Lemma same_elsewhere_trans (ls1 ls2 ls3 : LocalStorage) :
  same_elsewhere ls1 ls2 -> same_elsewhere ls2 ls3 -> same_elsewhere ls1 ls3.
Proof.
  intros (Hr1 & Hw1 & Hk1) (Hr2 & Hw2 & Hk2). repeat split; try congruence.
  intros key Hkey. rewrite Hk2, Hk1 by done. done.
Qed.

Lemma local_ret {A} (a : A) : local (ret a).
Proof. intros w. apply same_elsewhere_refl. Qed.

Lemma local_throw {A} (message : string) : local (throw (A := A) message).
Proof. intros w. apply same_elsewhere_refl. Qed.

Lemma local_unmodelled {A} : local (unmodelled (A := A)).
Proof. intros w. exact I. Qed.

Lemma local_bind {A B} (m : M world A) (k : A -> M world B) :
  local m -> (forall a, local (k a)) -> local (bind m k).
Proof.
  intros Hm Hk w. unfold bind. specialize (Hm w).
  destruct (m w) as [a w1|msg w1|]; [|done|done].
  specialize (Hk a w1). destruct (k a w1); [| |done];
    by eapply same_elsewhere_trans.
Qed.

Lemma local_try_catch {A} (body : M world A) (handler : string -> M world A) :
  local body -> (forall message, local (handler message)) ->
  local (try_catch body handler).
Proof.
  intros Hb Hh w. unfold try_catch. specialize (Hb w).
  destruct (body w) as [a w1|msg w1|]; [done| |done].
  specialize (Hh msg w1). destruct (handler msg w1); [| |done];
    by eapply same_elsewhere_trans.
Qed.

Lemma local_get_state : local get_state.
Proof. intros w. apply same_elsewhere_refl. Qed.

Lemma local_set_stats (v : json) : local (set_stats v).
Proof. intros w. apply same_elsewhere_refl. Qed.

Lemma local_getItem (key : string) : local (getItem key).
Proof.
  intros w. unfold getItem. destruct (readable _); apply same_elsewhere_refl.
Qed.

Lemma local_setItem (value : string) : local (setItem STORAGE_KEY value).
Proof.
  intros w. unfold setItem.
  destruct (writable (localStorage w)) eqn:Hw; [|apply same_elsewhere_refl].
  simpl. split; [done|]. split; [by rewrite Hw|]. simpl. intros key Hkey.
  apply lookup_insert_ne. congruence.
Qed.

Lemma local_read_prop (key : string) (v : json) : local (read_prop key v).
Proof. destruct v; first [apply local_ret | apply local_throw]. Qed.

Lemma local_toLocaleString (v : option json) : local (toLocaleString v).
Proof.
  destruct v as [[]|]; first [apply local_ret | apply local_throw].
Qed.

Lemma local_JSON_parse_m (text : string) : local (JSON_parse_m text).
Proof.
  unfold JSON_parse_m. destruct (JSON_parse text);
    first [apply local_ret | apply local_throw | apply local_unmodelled].
Qed.

Lemma local_add_assign (key : string) (n : Z) : local (add_assign key n).
Proof.
  unfold add_assign. apply local_bind; [apply local_get_state|]. intros w.
  apply local_bind; [apply local_read_prop|]. intros old.
  destruct (stats w); try apply local_unmodelled.
  destruct old as [[]|];
    first [apply local_set_stats | apply local_unmodelled].
Qed.

Lemma local_saveStats : local saveStats.
Proof.
  unfold saveStats. apply local_try_catch.
  - apply local_bind; [apply local_get_state|]. intros w. apply local_setItem.
  - intros message. apply local_ret.
Qed.

Lemma local_updateDisplay : local updateDisplay.
Proof.
  unfold updateDisplay. apply local_bind; [apply local_get_state|]. intros w.
  repeat (apply local_bind; [apply local_read_prop|]; intros ?).
  apply local_toLocaleString.
Qed.

Lemma local_loadStats : local loadStats.
Proof.
  unfold loadStats. apply local_try_catch; [|intros; apply local_ret].
  apply local_bind; [apply local_getItem|]. intros [[|c text]|];
    try apply local_ret.
  apply local_bind; [apply local_JSON_parse_m|]. intros v.
  apply local_set_stats.
Qed.

Lemma local_then_save (m : M world unit) :
  local m -> local (bind m (fun _ => bind saveStats (fun _ => updateDisplay))).
Proof.
  intros Hm. apply local_bind; [exact Hm|]. intros _.
  apply local_bind; [apply local_saveStats|]. intros _.
  apply local_updateDisplay.
Qed.

Lemma local_init : local init.
Proof.
  apply local_bind; [apply local_loadStats|]. intros _.
  apply local_updateDisplay.
Qed.

Lemma local_after {A} (m : M world A) (w w' : world) :
  local m -> after (m w) = Some w' ->
  same_elsewhere (localStorage w) (localStorage w').
Proof.
  intros Hm. specialize (Hm w). destruct (m w); simpl; intros [= <-]; done.
Qed.

(** X6: The module keeps to its own key.  Whatever [stats] holds and whatever
    is called (the storage may hold other applications' data), an
    operation of the module reads and writes nothing in [localStorage] but
    the entry "pos_stats": every other key keeps its value. *)
Theorem stats_touches_only_its_key (ops : list op) (w w' : world)
    (key : string) :
  run ops w = Some w' ->
  key <> STORAGE_KEY ->
  contents (localStorage w') !! key = contents (localStorage w) !! key.
Proof.
  revert w. induction ops as [|o ops IH]; intros w Hrun Hkey; simpl in Hrun.
  - by injection Hrun as <-.
  - destruct (step w o) as [w1|] eqn:Hstep; [|discriminate].
    rewrite (IH w1 Hrun Hkey).
    assert (Hlocal : forall A (m : M world A),
               local m -> after (m w) = Some w1 ->
               contents (localStorage w1) !! key
               = contents (localStorage w) !! key).
    { intros A m Hm Hafter.
      destruct (local_after m w w1 Hm Hafter) as (_ & _ & Hk). by apply Hk. }
    destruct o as [|n| |n| |r wr|]; simpl in Hstep.
    + apply (Hlocal _ init); [apply local_init|done].
    + apply (Hlocal _ (incrementItemsScanned n)); [|done].
      apply local_then_save, local_add_assign.
    + apply (Hlocal _ incrementOrders); [|done].
      apply local_then_save, local_add_assign.
    + apply (Hlocal _ (addRevenue n)); [|done].
      apply local_then_save, local_add_assign.
    + apply (Hlocal _ resetStats); [|done].
      apply local_then_save, local_set_stats.
    + by injection Hstep as <-.
    + by injection Hstep as <-.
Qed.

Lemma stats_touches_only_its_key_witness :
  let ls := {| contents := {[ "theme" := "dark" ]};
               readable := true; writable := true |} in
  let ops := [Init; IncrementItemsScanned 1; ResetStats; AddRevenue 30] in
  exists w',
    run ops (boot ls) = Some w'
    /\ contents (localStorage w') !! "theme" = Some "dark".
Proof.
  intros ls ops.
  destruct (run_well_formed ops (boot ls)) as (w' & Hrun & _).
  { apply boot_well_formed. unfold fresh. simpl.
    apply lookup_singleton_ne. discriminate. }
  exists w'. split; [exact Hrun|].
  rewrite (stats_touches_only_its_key ops (boot ls) w' "theme" Hrun);
    [apply lookup_singleton_eq|discriminate].
Defined.

(** X7: [resetStats()] repairs whatever [stats] held, even a value adopted
    from a foreign snapshot: it returns normally, all three counters are
    zero, and when the storage takes the write and gives it back, the next
    page load starts from zero as well. *)
Theorem resetStats_zeroes_and_persists (w : world) :
  exists w',
    resetStats w = Returns tt w'
    /\ itemsScanned w' = Some 0 /\ ordersCompleted w' = Some 0
    /\ totalRevenue w' = Some 0
    /\ (writable (localStorage w) = true ->
        readable (localStorage w) = true ->
        exists w'',
          init (boot (localStorage w')) = Returns tt w''
          /\ stats w'' = record 0 0 0).
Proof.
  exists (saved defaults (localStorage w)).
  split; [apply resetStats_saved|]. repeat split.
  intros Hwr Hrd.
  exists {| stats := record 0 0 0;
            localStorage := localStorage (saved defaults (localStorage w)) |}.
  split; [|reflexivity].
  assert (Hload : loadStats (boot (localStorage (saved defaults (localStorage w))))
                  = Returns tt
                      {| stats := record 0 0 0;
                         localStorage :=
                           localStorage (saved defaults (localStorage w)) |}).
  { apply (loadStats_parsed
             (boot (localStorage (saved defaults (localStorage w))))
             (stringify (record 0 0 0))).
    - simpl. rewrite Hwr. exact Hrd.
    - simpl. rewrite Hwr. apply lookup_insert_eq.
    - apply stringify_record_nonempty.
    - apply JSON_roundtrip_record. }
  unfold init, bind. rewrite Hload. reflexivity.
Qed.

Lemma resetStats_zeroes_and_persists_witness :
  let w := {| stats := JObj [];
              localStorage := {| contents := {[ STORAGE_KEY := "{}" ]};
                                 readable := true; writable := true |} |} in
  exists w' w'',
    resetStats w = Returns tt w'
    /\ init (boot (localStorage w')) = Returns tt w''
    /\ stats w'' = record 0 0 0.
Proof.
  intros w.
  destruct (resetStats_zeroes_and_persists w) as (w' & Hreset & _ & _ & _ & Hnext).
  destruct (Hnext eq_refl eq_refl) as (w'' & Hinit & Hstats).
  by exists w', w''.
Defined.

End StatsMore.

(* --------------------------------------------------------------------- *)
(** ** Export: one file per successful export, distinct identifiers       *)
(* --------------------------------------------------------------------- *)

Section ExportMore.

Lemma append_cons (c : ascii) (s t : string) :
  String c s +:+ t = String c (s +:+ t).
Proof. reflexivity. Qed.

Lemma append_inj_l (p x y : string) : p +:+ x = p +:+ y -> x = y.
Proof.
  induction p as [|c p IH]; [done|].
  rewrite !append_cons. intros [= H]. by apply IH.
Qed.

(** Two texts cut at their first underscore agree piece by piece. *)
Lemma split_at_underscore (t1 t2 r1 r2 : string) :
  Exporter.no_underscore t1 = true -> Exporter.no_underscore t2 = true ->
  t1 +:+ String "_" r1 = t2 +:+ String "_" r2 ->
  t1 = t2 /\ r1 = r2.
Proof.
  revert t2. induction t1 as [|c t1 IH]; intros [|d t2] H1 H2;
    rewrite ?append_cons; simpl in H1, H2.
  - change ("" +:+ String "_" r1) with (String "_" r1).
    change ("" +:+ String "_" r2) with (String "_" r2).
    by intros [= ->].
  - change ("" +:+ String "_" r1) with (String "_" r1).
    intros [= <- _]. discriminate.
  - change ("" +:+ String "_" r2) with (String "_" r2).
    intros [= -> _]. discriminate.
  - apply andb_true_iff in H1 as [_ H1]. apply andb_true_iff in H2 as [_ H2].
    intros [= -> Heq]. destruct (IH t2 H1 H2 Heq) as [-> ->]. done.
Qed.

(** X8: Order identifiers are as distinct as what they are made of: with
    clock readings printed without an underscore (they are decimal
    numbers), two exports get the same identifier exactly when both the
    clock reading and the random suffix coincide. *)
Theorem generateOrderId_injective (e1 e2 : Exporter.env) :
  Exporter.no_underscore (Exporter.date_now e1) = true ->
  Exporter.no_underscore (Exporter.date_now e2) = true ->
  Exporter.generateOrderId e1 = Exporter.generateOrderId e2
  <-> Exporter.date_now e1 = Exporter.date_now e2
      /\ Exporter.random_suffix e1 = Exporter.random_suffix e2.
Proof.
  intros H1 H2. split.
  - intros Hid. unfold Exporter.generateOrderId in Hid.
    apply append_inj_l in Hid. by apply split_at_underscore.
  - intros [Ht Hr]. unfold Exporter.generateOrderId. by rewrite Ht, Hr.
Qed.

(** Same millisecond, different draws: different identifiers. *)
Lemma generateOrderId_injective_witness :
  let e1 := {| Exporter.date_now := "1700000000000";
               Exporter.random_suffix := "k3x9qa";
               Exporter.iso_now := "2023-11-14T22:13:20.000Z";
               Exporter.download_error := None |} in
  let e2 := {| Exporter.date_now := "1700000000000";
               Exporter.random_suffix := "0b7_zz";
               Exporter.iso_now := "2023-11-14T22:13:20.000Z";
               Exporter.download_error := None |} in
  Exporter.generateOrderId e1 <> Exporter.generateOrderId e2.
Proof.
  intros e1 e2 Heq.
  apply (generateOrderId_injective e1 e2 eq_refl eq_refl) in Heq as [_ Hr].
  discriminate Hr.
Defined.

(** X9: [exportOrder] never throws, and a file is written exactly when it
    reports success: on success one file, named after the fresh order
    identifier and carrying the items, total and count of the snapshot, is
    added to the downloads; on failure the result carries the reason and
    the downloads are as before. *)
Theorem exportOrder_file_iff_success (e : Exporter.env)
    (orderData : Cart.OrderData) (files : Exporter.downloads) :
  exists r files',
    Exporter.exportOrder e orderData files = Returns r files'
    /\ (Exporter.success r = true <-> Exporter.download_error e = None)
    /\ (Exporter.success r = true ->
        exists data,
          files' = files ++ [("order_" +:+ Exporter.generateOrderId e +:+ ".json", data)]
          /\ Exporter.filename r
             = Some ("order_" +:+ Exporter.generateOrderId e +:+ ".json")
          /\ Exporter.result_orderId r = Some (Exporter.generateOrderId e)
          /\ Exporter.orderId data = Exporter.generateOrderId e
          /\ Exporter.items data = Cart.od_items orderData
          /\ Exporter.total data = Cart.od_total orderData
          /\ Exporter.itemsCount data = Cart.od_itemsCount orderData)
    /\ (Exporter.success r = false ->
        files' = files /\ Exporter.error r = Exporter.download_error e
        /\ Exporter.filename r = None).
Proof.
  destruct (Exporter.download_error e) as [message|] eqn:Herr.
  - rewrite (exportOrder_failure e orderData files message Herr).
    eexists _, _. split; [reflexivity|]. simpl. split; [|split].
    + split; discriminate.
    + discriminate.
    + done.
  - rewrite (exportOrder_success e orderData files Herr).
    eexists _, _. split; [reflexivity|]. simpl. split; [|split].
    + done.
    + intros _. eexists. repeat split.
    + discriminate.
Qed.

Lemma exportOrder_file_iff_success_witness :
  let e := {| Exporter.date_now := "1700000000000";
              Exporter.random_suffix := "k3x9qa";
              Exporter.iso_now := "2023-11-14T22:13:20.000Z";
              Exporter.download_error := None |} in
  let orderData :=
    Cart.getOrderData
      (Cart.run [Cart.AddItem Detection.coffee None "t0"] Cart.initial) in
  exists r files' data,
    Exporter.exportOrder e orderData [] = Returns r files'
    /\ Exporter.success r = true
    /\ files' = [("order_order_1700000000000_k3x9qa.json", data)]
    /\ Exporter.total data = 100.
Proof.
  intros e orderData.
  destruct (exportOrder_file_iff_success e orderData [])
    as (r & files' & Hrun & Hiff & Hok & _).
  assert (Hs : Exporter.success r = true) by (by apply Hiff).
  destruct (Hok Hs) as (data & Hfiles & _ & _ & _ & _ & Htotal & _).
  by exists r, files', data.
Defined.

Lemma exportCurrentCart_nonempty_witness :
  let e := {| Exporter.date_now := "1700000000000";
              Exporter.random_suffix := "k3x9qa";
              Exporter.iso_now := "2023-11-14T22:13:20.000Z";
              Exporter.download_error := None |} in
  let cart :=
    Cart.run [Cart.AddItem Detection.coffee None "t0";
              Cart.AddItem Detection.water None "t1"] Cart.initial in
  exists r name data,
    Exporter.exportCurrentCart e cart [] = Returns r ([] ++ [(name, data)])
    /\ Exporter.success r = true
    /\ Exporter.items data = Cart.items cart
    /\ Exporter.total data = Cart.getTotal cart.
Proof.
  intros e cart. apply exportCurrentCart_nonempty; [discriminate|reflexivity].
Defined.

End ExportMore.

(* --------------------------------------------------------------------- *)
(** ** Detection: arg-max, box, catalog lookups                           *)
(* --------------------------------------------------------------------- *)

Section DetectionMore.
Import Detection.

Lemma argmax_from_spec (probabilities : list Q) (i : nat) (maxProb : Q)
    (maxIndex : nat) :
  let r := argmax_from probabilities i maxProb maxIndex in
  (r = (maxProb, maxIndex) /\ Forall (fun p => (p <= maxProb)%Q) probabilities)
  \/ (exists j,
        snd r = (i + j)%nat
        /\ probabilities !! j = Some (fst r)
        /\ (maxProb < fst r)%Q
        /\ (forall j' p, (j' < j)%nat -> probabilities !! j' = Some p ->
              (p < fst r)%Q)
        /\ Forall (fun p => (p <= fst r)%Q) probabilities).
Proof.
  revert i maxProb maxIndex.
  induction probabilities as [|p rest IH]; intros i maxProb maxIndex; simpl.
  - left. split; [done|constructor].
  - destruct (Qltb maxProb p) eqn:Hlt.
    + apply Qltb_true in Hlt. apply Qnot_le_lt in Hlt. right.
      destruct (IH (S i) p i) as [[Heq Hall]|(j & Hk & Hj & Hm & Hbefore & Hall)].
      * rewrite Heq. simpl. exists O. split_and!.
        -- lia.
        -- reflexivity.
        -- exact Hlt.
        -- intros j' q Hj'. lia.
        -- constructor; [apply Qle_refl|done].
      * exists (S j). split_and!.
        -- lia.
        -- exact Hj.
        -- eapply Qlt_trans; eauto.
        -- intros [|j'] q Hj' Hq; simpl in Hq.
           ++ by injection Hq as <-.
           ++ apply (Hbefore j'); [lia|done].
        -- constructor; [by apply Qlt_le_weak|done].
    + apply Qltb_false in Hlt.
      destruct (IH (S i) maxProb maxIndex)
        as [[Heq Hall]|(j & Hk & Hj & Hm & Hbefore & Hall)].
      * left. split; [done|]. by constructor.
      * right. exists (S j). split_and!.
        -- lia.
        -- exact Hj.
        -- exact Hm.
        -- intros [|j'] q Hj' Hq; simpl in Hq.
           ++ injection Hq as <-. eapply Qle_lt_trans; eauto.
           ++ apply (Hbefore j'); [lia|done].
        -- constructor; [|done]. apply Qlt_le_weak.
           eapply Qle_lt_trans; eauto.
Qed.

(** X11: The arg-max loop of [detectObjects].  The confidence it returns is
    the largest probability, and the index is the first position where
    that maximum stands: every earlier entry is strictly smaller, so ties
    go to the first occurrence.  When no probability is positive (or the
    vector is empty) it returns confidence 0 at index 0. *)
Theorem argmax_first_maximum (probabilities : list Q) :
  let maxProb := fst (argmax probabilities) in
  let maxIndex := snd (argmax probabilities) in
  Forall (fun p => (p <= maxProb)%Q) probabilities
  /\ ((maxProb = 0%Q /\ maxIndex = O
       /\ Forall (fun p => (p <= 0)%Q) probabilities)
      \/ (probabilities !! maxIndex = Some maxProb
          /\ (0 < maxProb)%Q
          /\ forall j p, (j < maxIndex)%nat -> probabilities !! j = Some p ->
               (p < maxProb)%Q)).
Proof.
  intros maxProb maxIndex. unfold maxProb, maxIndex, argmax.
  destruct (argmax_from_spec probabilities O 0%Q O)
    as [[Heq Hall]|(j & Hk & Hj & Hm & Hbefore & Hall)].
  - rewrite Heq. simpl. split; [done|]. by left.
  - split; [done|]. right. simpl in Hk. rewrite Hk. done.
Qed.

Lemma argmax_first_maximum_witness :
  (1 # 10 < fst (argmax [1 # 10; 7 # 10; 7 # 10]))%Q
  /\ snd (argmax [1 # 10; 7 # 10; 7 # 10]%Q) = 1%nat.
Proof.
  destruct (argmax_first_maximum [1 # 10; 7 # 10; 7 # 10]%Q)
    as [_ [(Hzero & _)|(_ & _ & Hbefore)]].
  - discriminate Hzero.
  - split; [|reflexivity]. apply (Hbefore 0%nat); [simpl; lia|reflexivity].
Defined.

(** A tie between the first two classes goes to the first. *)
Example argmax_tie : argmax [4 # 10; 4 # 10; 2 # 10]%Q = ((4 # 10)%Q, O).
Proof. reflexivity. Qed.

(** The geometry of [box_for], in the rationals: the side is 60% of the
    shorter side of the frame (640 by 480 standing in for a dimension the
    video does not report), the box is centred and lies inside the
    frame. *)
Lemma box_for_geometry (v : VideoElement) :
  0 <= videoWidth v -> 0 <= videoHeight v ->
  let W := or_default (videoWidth v) 640 in
  let H := or_default (videoHeight v) 480 in
  let b := box_for v in
  (box_width b == inject_Z (Z.min W H) * (6 # 10)
   /\ box_height b == box_width b
   /\ box_x b + box_width b / 2 == inject_Z W / 2
   /\ box_y b + box_height b / 2 == inject_Z H / 2
   /\ 0 <= box_x b /\ box_x b + box_width b <= inject_Z W
   /\ 0 <= box_y b /\ box_y b + box_height b <= inject_Z H)%Q.
Proof.
  intros Hw Hh W H b.
  assert (HW : 0 < W).
  { unfold W, or_default. destruct (Z.eqb_spec (videoWidth v) 0); lia. }
  assert (HH : 0 < H).
  { unfold H, or_default. destruct (Z.eqb_spec (videoHeight v) 0); lia. }
  assert (Hminw : (inject_Z (Z.min W H) <= inject_Z W)%Q).
  { rewrite <- Zle_Qle. lia. }
  assert (Hminh : (inject_Z (Z.min W H) <= inject_Z H)%Q).
  { rewrite <- Zle_Qle. lia. }
  assert (Hpos : (0 < inject_Z (Z.min W H))%Q).
  { change 0%Q with (inject_Z 0). rewrite <- Zlt_Qlt. lia. }
  assert (Hside : (box_width b == inject_Z (Z.min W H) * (6 # 10))%Q).
  { unfold b, box_for. simpl. fold W H. rewrite Qred_correct. reflexivity. }
  assert (Hx : (box_x b == (inject_Z W - box_width b) / 2)%Q).
  { unfold b, box_for. simpl. fold W H. rewrite Qred_correct. reflexivity. }
  assert (Hy : (box_y b == (inject_Z H - box_width b) / 2)%Q).
  { unfold b, box_for. simpl. fold W H. rewrite Qred_correct. reflexivity. }
  assert (Hheight : box_height b = box_width b) by reflexivity.
  rewrite Hheight.
  generalize dependent (box_width b). intros side Hside Hx Hy.
  generalize dependent (box_x b). intros x Hx.
  generalize dependent (box_y b). intros y Hy.
  generalize dependent (inject_Z (Z.min W H)). intros m Hmw Hmh Hm Hside.
  generalize dependent (inject_Z W). intros qw Hmw Hx.
  generalize dependent (inject_Z H). intros qh Hmh Hy.
  intros _. unfold Qdiv in *. change (/ 2)%Q with (1 # 2)%Q in *.
  split_and!; lra.
Qed.

(** X12: The cosmetic box on frames whose shorter side is a multiple of
    five pixels (640 by 480, 1280 by 720, 1920 by 1080, ...), with
    dimensions below 2^32 as the video element reports them.  On these
    frames the product by 0.6 is the integer 3m/5 and every step of the
    computation is exact in double precision, so the values are the
    code's values: the side is 3m/5 for the shorter side m (640 by 480
    standing in for a dimension the video does not report), width and
    height are equal, twice the offsets are the frame's dimensions less
    the side, so the box is centred, and it lies inside the frame. *)
Theorem box_is_centred_square (v : VideoElement) :
  0 <= videoWidth v < 2 ^ 32 -> 0 <= videoHeight v < 2 ^ 32 ->
  (Z.min (or_default (videoWidth v) 640) (or_default (videoHeight v) 480))
    mod 5 = 0 ->
  let W := or_default (videoWidth v) 640 in
  let H := or_default (videoHeight v) 480 in
  let side := 3 * (Z.min W H / 5) in
  let b := box_for v in
  (box_width b == inject_Z side
   /\ box_height b == inject_Z side
   /\ 2 * box_x b == inject_Z (W - side)
   /\ 2 * box_y b == inject_Z (H - side)
   /\ box_x b + box_width b / 2 == inject_Z W / 2
   /\ box_y b + box_height b / 2 == inject_Z H / 2
   /\ 0 <= box_x b /\ box_x b + box_width b <= inject_Z W
   /\ 0 <= box_y b /\ box_y b + box_height b <= inject_Z H)%Q.
Proof.
  intros Hw Hh Hmod W H side b.
  destruct (box_for_geometry v (proj1 Hw) (proj1 Hh))
    as (Hside & Hheight & Hcx & Hcy & Hx0 & Hx1 & Hy0 & Hy1).
  fold W H b in Hside, Hheight, Hcx, Hcy, Hx0, Hx1, Hy0, Hy1.
  fold W H in Hmod.
  assert (Hexact : (inject_Z (Z.min W H) * (6 # 10) == inject_Z side)%Q).
  { unfold side. pose proof (Z.div_mod (Z.min W H) 5 ltac:(lia)) as Hdiv.
    rewrite Hmod, Z.add_0_r in Hdiv.
    unfold Qeq, Qmult, inject_Z. simpl. lia. }
  assert (Hsub : forall n, (inject_Z (n - side) == inject_Z n - inject_Z side)%Q).
  { intros n. unfold Z.sub. rewrite inject_Z_plus, inject_Z_opp. reflexivity. }
  pose proof (Qeq_trans _ _ _ Hside Hexact) as Hside'.
  pose proof (Hsub W) as HsubW. pose proof (Hsub H) as HsubH.
  clear Hside Hexact Hsub Hmod Hw Hh.
  clearbody b side W H.
  generalize dependent (inject_Z (W - side)). intros dw HsubW.
  generalize dependent (inject_Z (H - side)). intros dh HsubH.
  unfold Qdiv in *. change (/ 2)%Q with (1 # 2)%Q in *.
  split_and!; lra.
Qed.

(** On the 640 by 480 frame: side 288, at (176, 96). *)
Lemma box_is_centred_square_witness :
  let b := box_for playing in
  (box_width b == inject_Z 288
   /\ box_height b == inject_Z 288
   /\ 2 * box_x b == inject_Z (640 - 288)
   /\ 2 * box_y b == inject_Z (480 - 288)
   /\ box_x b + box_width b / 2 == inject_Z 640 / 2
   /\ box_y b + box_height b / 2 == inject_Z 480 / 2
   /\ 0 <= box_x b /\ box_x b + box_width b <= inject_Z 640
   /\ 0 <= box_y b /\ box_y b + box_height b <= inject_Z 480)%Q.
Proof.
  apply (box_is_centred_square playing); simpl; first [lia|reflexivity].
Defined.

(** *** [mapClassToProduct]: white space and case *)

Lemma is_space_lower_char (c : ascii) : is_space (lower_char c) = is_space c.
Proof. destruct c as [[] [] [] [] [] [] [] []]; reflexivity. Qed.

Lemma trimStart_toLowerCase (s : string) :
  trimStart (toLowerCase s) = toLowerCase (trimStart s).
Proof.
  induction s as [|c s IH]; [done|]. simpl.
  rewrite is_space_lower_char. by destruct (is_space c).
Qed.

Lemma trimEnd_toLowerCase (s : string) :
  trimEnd (toLowerCase s) = toLowerCase (trimEnd s).
Proof.
  induction s as [|c s IH]; [done|]. simpl. rewrite IH.
  destruct (trimEnd s); simpl; [|done].
  rewrite is_space_lower_char. by destruct (is_space c).
Qed.

Lemma trim_toLowerCase (s : string) :
  trim (toLowerCase s) = toLowerCase (trim s).
Proof.
  unfold trim. by rewrite trimStart_toLowerCase, trimEnd_toLowerCase.
Qed.

Lemma trimStart_all_space (s : string) :
  all_space s = true -> trimStart s = "".
Proof.
  induction s as [|c s IH]; [done|]. simpl.
  intros [Hc Hs]%andb_true_iff. rewrite Hc. auto.
Qed.

Lemma trimEnd_all_space (s : string) :
  all_space s = true -> trimEnd s = "".
Proof.
  induction s as [|c s IH]; [done|]. simpl.
  intros [Hc Hs]%andb_true_iff. rewrite (IH Hs). by rewrite Hc.
Qed.

Lemma trimStart_pad (l s : string) :
  all_space l = true -> trimStart (l +:+ s) = trimStart s.
Proof.
  induction l as [|c l IH]; [done|].
  intros H. simpl in H. apply andb_true_iff in H as [Hc Hl].
  rewrite append_cons. simpl. rewrite Hc. auto.
Qed.

Lemma trimEnd_pad (s r : string) :
  all_space r = true -> trimEnd (s +:+ r) = trimEnd s.
Proof.
  intros Hr. induction s as [|c s IH].
  - by apply trimEnd_all_space.
  - rewrite append_cons. simpl. by rewrite IH.
Qed.

Lemma trim_pad_right (s r : string) :
  all_space r = true -> trim (s +:+ r) = trim s.
Proof.
  intros Hr. unfold trim. induction s as [|c s IH].
  - change ("" +:+ r) with r. rewrite (trimStart_all_space r Hr). done.
  - rewrite append_cons. simpl. destruct (is_space c); [done|].
    rewrite <- append_cons. by apply trimEnd_pad.
Qed.

(** X14: [mapClassToProduct] looks at the label only up to surrounding
    white space and letter case: padding a label with white space on
    either side and changing the case of its letters does not change the
    product found. *)
Theorem mapClassToProduct_ignores_case_and_padding (l r s s' : string) :
  all_space l = true -> all_space r = true ->
  toLowerCase s = toLowerCase s' ->
  mapClassToProduct (l +:+ (s +:+ r)) = mapClassToProduct s'.
Proof.
  intros Hl Hr Hcase. unfold mapClassToProduct.
  assert (Heq : toLowerCase (trim (l +:+ (s +:+ r))) = toLowerCase (trim s')).
  { unfold trim at 1. rewrite (trimStart_pad l _ Hl).
    fold (trim (s +:+ r)). rewrite (trim_pad_right s r Hr).
    by rewrite <- !trim_toLowerCase, Hcase. }
  by rewrite Heq.
Qed.

Lemma mapClassToProduct_ignores_case_and_padding_witness :
  mapClassToProduct ("  " +:+ ("CaFFee" +:+ " ")) = mapClassToProduct "caffee".
Proof.
  apply mapClassToProduct_ignores_case_and_padding; reflexivity.
Defined.

(** *** [getProductById] *)

(** X15: [getProductById] returns a product exactly when the catalog
    holds it under that id, and every product [classify] reports is
    found again by its id. *)
Theorem getProductById_finds_catalog_products :
  (forall (i : Z) (p : Product),
      getProductById i = Some p <-> p ∈ PRODUCTS /\ p_id p = i)
  /\ (forall (v : VideoElement) (probabilities : list Q) (d : DetectionResult),
        d ∈ classify v probabilities ->
        getProductById (p_id (product d)) = Some (product d)).
Proof.
  assert (Hiff : forall (i : Z) (p : Product),
             getProductById i = Some p <-> p ∈ PRODUCTS /\ p_id p = i).
  { intros i p. unfold getProductById. split.
    - intros Hfind. apply find_some in Hfind as [Hin Heq].
      split; [by apply list_elem_of_In|]. by apply Z.eqb_eq.
    - intros [Hin <-]. unfold PRODUCTS in Hin.
      apply elem_of_cons in Hin as [->|Hin]; [done|].
      apply elem_of_cons in Hin as [->|Hin]; [done|].
      by apply elem_of_nil in Hin. }
  split; [exact Hiff|].
  intros v probabilities d Hd. apply Hiff.
  split; [|done]. by apply (classify_product v probabilities).
Qed.

Lemma getProductById_finds_catalog_products_witness :
  getProductById 2 = Some water
  /\ getProductById (p_id (product coffee_detection)) = Some coffee.
Proof.
  destruct getProductById_finds_catalog_products as [Hiff Hdet].
  split.
  - apply Hiff. split; [|done]. unfold PRODUCTS. do 2 constructor.
  - apply (Hdet playing [82 # 100; 10 # 100; 8 # 100]%Q coffee_detection).
    vm_compute. apply list_elem_of_here.
Defined.

(** *** Model loading *)

Lemma load_consistent_step (st : state) (e : event) :
  load_consistent st -> load_consistent (step st e).
Proof.
  intros H.
  destruct e as [tf| | |callback video| |t video|k inf]; simpl.
  - unfold loadModel_call.
    destruct (modelLoaded st) eqn:Hl; [exact H|].
    destruct (modelLoading st) eqn:Hg; [exact H|].
    destruct H as [Hiff Hexcl]. rewrite Hl in Hiff.
    destruct tf; (split; simpl; [exact Hiff|done]).
  - unfold loadModel_resolved.
    destruct (modelLoading st) eqn:Hg; [|exact H].
    split; simpl; [split; eauto|done].
  - unfold loadModel_rejected.
    destruct (modelLoading st) eqn:Hg; [|exact H].
    destruct H as [Hiff Hexcl]. split; simpl; [exact Hiff|done].
  - unfold startContinuousDetection.
    destruct (truthy _); [exact H|]. destruct (negb (modelLoaded st)); [exact H|].
    destruct video; exact H.
  - unfold stopContinuousDetection.
    destruct (continuousDetectionId st) as [t|]; [|exact H].
    destruct (negb _); exact H.
  - unfold timer_fires. destruct (bool_decide _); [|exact H].
    destruct video; exact H.
  - unfold detectFrame_resume. destruct (inflight st !! k); [|exact H].
    destruct (detectObjects _ _ _); [|exact H].
    destruct (continuousDetectionCallback _); exact H.
Qed.

(** X16: however calls of [loadModel], their outcomes and the poller's
    events interleave, the module holds a model exactly when
    [modelLoaded] is set, and never has a load waiting while the model is
    loaded. *)
Theorem load_flags_consistent (events : list event) :
  load_consistent (run events initial).
Proof.
  assert (Hgen : forall st, load_consistent st -> load_consistent (run events st)).
  { induction events as [|e events IH]; intros st Hst; [done|].
    simpl. apply IH. by apply load_consistent_step. }
  apply Hgen. split; simpl; [|done].
  split; [done|]. intros [m Hm]. done.
Qed.

(** *** The poller *)

Lemma handles_positive_step (st : state) (e : event) :
  handles_positive st -> handles_positive (step st e).
Proof.
  intros [Hnext Hid]. unfold handles_positive.
  assert (Hsched : forall st', 0 < next_timer st' ->
            handles_positive (schedule st')).
  { intros st' Hn. split; simpl; [lia|]. intros t [= <-]. done. }
  destruct e as [tf| | |callback video| |t video|k inf]; simpl.
  - unfold loadModel_call.
    destruct (modelLoaded st); [done|]. destruct (modelLoading st); [done|].
    by destruct tf.
  - unfold loadModel_resolved. by destruct (modelLoading st).
  - unfold loadModel_rejected. by destruct (modelLoading st).
  - unfold startContinuousDetection.
    destruct (truthy _); [done|]. destruct (negb (modelLoaded st)); [done|].
    destruct video; [done|]. by apply Hsched.
  - unfold stopContinuousDetection.
    destruct (continuousDetectionId st) as [t|] eqn:Ht; [|by rewrite Ht in *].
    destruct (negb _); [|by rewrite Ht in *]. simpl. split; [done|]. done.
  - unfold timer_fires. destruct (bool_decide _); [|done].
    destruct video; [done|]. by apply Hsched.
  - unfold detectFrame_resume. destruct (inflight st !! k); [|done].
    destruct (detectObjects _ _ _); [|done].
    destruct (continuousDetectionCallback _); by apply Hsched.
Qed.

Lemma handles_positive_run (events : list event) (st : state) :
  handles_positive st -> handles_positive (run events st).
Proof.
  revert st. induction events as [|e events IH]; intros st Hst; [done|].
  simpl. apply IH. by apply handles_positive_step.
Qed.

(** X18: in every state the module can reach, [stopContinuousDetection]
    leaves [isContinuousDetectionRunning] answering false, and calling it
    a second time changes nothing. *)
Theorem stopContinuousDetection_idempotent (events : list event) :
  let st := stopContinuousDetection (run events initial) in
  isContinuousDetectionRunning st = false
  /\ stopContinuousDetection st = st.
Proof.
  intros st.
  assert (Hpos : handles_positive (run events initial)).
  { apply handles_positive_run. split; simpl; [lia|done]. }
  destruct Hpos as [_ Hid]. subst st.
  set (r := run events initial) in *.
  unfold stopContinuousDetection.
  destruct (continuousDetectionId r) as [t|] eqn:Ht.
  - specialize (Hid t eq_refl).
    assert (Hnz : negb (t =? 0) = true).
    { apply negb_true_iff, Z.eqb_neq. lia. }
    rewrite Hnz. simpl. split; reflexivity.
  - rewrite Ht. split; [|done].
    unfold isContinuousDetectionRunning. rewrite Ht. reflexivity.
Qed.

(** With the model loaded, [detectObjects] returns at most one
    detection. *)
Lemma detectObjects_loaded (st : state) (videoElement : option VideoElement)
    (inf : inference) :
  modelLoaded st = true -> is_Some (model st) ->
  exists detections,
    detectObjects st videoElement inf = Ok detections
    /\ (length detections <= 1)%nat.
Proof.
  intros Hl Hm. unfold detectObjects. rewrite Hl. simpl.
  rewrite bool_decide_eq_true_2 by done. simpl.
  destruct videoElement as [v|]; [|exists []; split; [done|simpl; lia]].
  destruct (readyState v <? 2); [exists []; split; [done|simpl; lia]|].
  destruct inf as [probabilities|message];
    [|exists []; split; [done|simpl; lia]].
  exists (classify v probabilities). split; [done|].
  destruct (classify_cases v probabilities)
    as [[_ Heq]|[(_ & _ & Heq)|[(_ & _ & _ & Heq)|(_ & _ & p & _ & Heq)]]];
    rewrite Heq; simpl; lia.
Qed.

Lemma one_chain_unchanged (callback : Callback) (st : state) :
  one_chain callback st ->
  one_chain callback st
  /\ exists calls,
       invocations st = invocations st ++ calls
       /\ reports_to callback calls
       /\ (cycles st + length (inflight st)
           = cycles st + length calls + length (inflight st))%nat.
Proof.
  intros H. split; [done|]. exists []. rewrite app_nil_r.
  split; [done|]. split; [constructor|]. simpl. lia.
Qed.

(** A tick of the event loop keeps a single chain single; a cycle that
    completes makes one call of the callback. *)
Lemma one_chain_tick (callback : Callback) (st : state) (e : event) :
  is_tick e = true -> one_chain callback st ->
  one_chain callback (step st e)
  /\ exists calls,
       invocations (step st e) = invocations st ++ calls
       /\ reports_to callback calls
       /\ (cycles (step st e) + length (inflight st)
           = cycles st + length calls + length (inflight (step st e)))%nat.
Proof.
  intros Htick Hchain.
  pose proof Hchain as (Hl & Hm & Hcb & Hn & Hshape).
  destruct e as [tf| | |cb video| |t' video|k inf]; try discriminate; simpl.
  - (* a timer fires *)
    unfold timer_fires.
    destruct Hshape as [(v & Hin & Ht)|(t & Hin & Ht & Hid & Hnz)].
    + rewrite Ht. rewrite bool_decide_eq_false_2 by apply not_elem_of_nil.
      by apply one_chain_unchanged.
    + rewrite Ht. destruct (decide (t' = t)) as [->|Hne].
      * rewrite bool_decide_eq_true_2 by apply list_elem_of_here.
        simpl. rewrite Z.eqb_refl. simpl.
        destruct video as [v|]; simpl.
        -- split.
           ++ split_and!; simpl; try done. left. exists v. by rewrite Hin.
           ++ exists []. rewrite app_nil_r, Hin. simpl.
              split; [done|]. split; [constructor|]. lia.
        -- split.
           ++ split_and!; simpl; try done; [lia|].
              right. exists (next_timer st). split_and!; try done. lia.
           ++ exists []. rewrite app_nil_r, Hin. simpl.
              split; [done|]. split; [constructor|]. lia.
      * rewrite bool_decide_eq_false_2.
        -- by apply one_chain_unchanged.
        -- intros Hel. apply list_elem_of_singleton in Hel. done.
  - (* an awaited detection settles *)
    unfold detectFrame_resume.
    destruct (inflight st !! k) as [v|] eqn:Hk; [|by apply one_chain_unchanged].
    destruct Hshape as [(v0 & Hin & Ht)|(t & Hin & Ht & Hid & Hnz)];
      [|by rewrite Hin in Hk].
    rewrite Hin in Hk. destruct k as [|k]; [|done]. clear Hk.
    match goal with
    | |- context [detectObjects ?s ?ve inf] =>
        destruct (detectObjects_loaded s ve inf Hl Hm) as (ds & Hds & Hlen);
        rewrite Hds
    end.
    simpl. rewrite Hcb, Hin, Ht. simpl. split.
    + split_and!; simpl; try done; [lia|].
      right. exists (next_timer st). split_and!; try done. lia.
    + exists [(callback, ds)]. split; [done|].
      split; [constructor; [by split|constructor]|]. simpl. lia.
Qed.

Lemma one_chain_run (callback : Callback) (ticks : list event) (st : state) :
  Forall (fun e => is_tick e = true) ticks -> one_chain callback st ->
  one_chain callback (run ticks st)
  /\ exists calls,
       invocations (run ticks st) = invocations st ++ calls
       /\ reports_to callback calls
       /\ (cycles (run ticks st) + length (inflight st)
           = cycles st + length calls + length (inflight (run ticks st)))%nat.
Proof.
  intros Hticks. revert st.
  induction Hticks as [|e ticks He _ IH]; intros st Hchain.
  - by apply one_chain_unchanged.
  - simpl.
    destruct (one_chain_tick callback st e He Hchain)
      as (Hchain1 & calls1 & Hinv1 & Hrep1 & Hcount1).
    destruct (IH _ Hchain1) as (Hchain2 & calls2 & Hinv2 & Hrep2 & Hcount2).
    split; [done|]. exists (calls1 ++ calls2).
    split; [by rewrite Hinv2, Hinv1, app_assoc|].
    split; [by apply Forall_app|]. rewrite length_app. lia.
Qed.

(** X19: started on an idle poller with the model loaded and left to the
    event loop, continuous detection runs as a single chain: at any moment
    either one cycle is in flight and no timer is pending, or no cycle is
    in flight and exactly one timer is pending, the one
    [continuousDetectionId] names.  Every call it makes goes to the
    callback it was started with and carries at most one detection, and
    every completed cycle makes exactly one call. *)
Theorem poller_runs_one_chain (callback : Callback)
    (videoElement : option VideoElement) (ticks : list event) (st : state) :
  idle st ->
  Forall (fun e => is_tick e = true) ticks ->
  let st' := run (Start callback videoElement :: ticks) st in
  one_chain callback st'
  /\ exists calls,
       invocations st' = invocations st ++ calls
       /\ reports_to callback calls
       /\ cycles st' = (cycles st + length calls + length (inflight st'))%nat.
Proof.
  intros (Hl & Hm & Hid & Ht & Hin & Hn) Hticks st'.
  set (st1 := step st (Start callback videoElement)).
  assert (Hst1 : one_chain callback st1
                 /\ invocations st1 = invocations st
                 /\ cycles st1 = (cycles st + length (inflight st1))%nat).
  { subst st1. simpl. unfold startContinuousDetection.
    rewrite Hid, Hl. simpl.
    destruct videoElement as [v|]; simpl.
    - rewrite Hin. simpl. split; [|split; [done|lia]].
      split_and!; simpl; try done. left. by exists v.
    - rewrite Hin, Ht. simpl. split; [|split; [done|lia]].
      split_and!; simpl; try done; [lia|].
      right. exists (next_timer st). split_and!; try done. lia. }
  destruct Hst1 as (Hchain1 & Hinv1 & Hcount1).
  destruct (one_chain_run callback ticks st1 Hticks Hchain1)
    as (Hchain2 & calls & Hinv2 & Hrep & Hcount2).
  change st' with (run ticks st1).
  split; [done|]. exists calls.
  split; [by rewrite Hinv2, Hinv1|]. split; [done|]. lia.
Qed.

Lemma poller_runs_one_chain_witness :
  let st' := run [Start 7%nat (Some playing);
                  DetectionSettles 0 coffee_frame;
                  TimerFires 1 (Some playing)] ready in
  one_chain 7%nat st'
  /\ exists calls,
       invocations st' = invocations ready ++ calls
       /\ reports_to 7%nat calls
       /\ cycles st' = (cycles ready + length calls + length (inflight st'))%nat.
Proof.
  apply (poller_runs_one_chain 7%nat (Some playing)
           [DetectionSettles 0 coffee_frame; TimerFires 1 (Some playing)] ready).
  - unfold idle. vm_compute. split_and!; eauto.
  - repeat constructor.
Defined.

(** *** Which outputs of the classifier can become a detection *)

(** X13: a detection can only come from one of the first two outputs of
    the classifier: when the arg-max stands at index 0 it is coffee under
    the label "caffee", at index 1 it is water under the label "water"; an
    arg-max at any other index (the "empty" class, or an output the label
    list does not name) never yields a detection. *)
Theorem detection_follows_output_index (v : VideoElement)
    (probabilities : list Q) (d : DetectionResult) :
  d ∈ classify v probabilities ->
  (snd (argmax probabilities) = 0%nat
   /\ product d = coffee /\ className d = "caffee")
  \/ (snd (argmax probabilities) = 1%nat
      /\ product d = water /\ className d = "water").
Proof.
  unfold classify, winner.
  destruct (argmax probabilities) as [maxProb maxIndex]. simpl.
  destruct (Qltb maxProb MIN_CONFIDENCE); [by intros ?%elem_of_nil|].
  destruct maxIndex as [|[|[|maxIndex]]].
  - intros Hd. apply list_elem_of_singleton in Hd. subst d. by left.
  - intros Hd. apply list_elem_of_singleton in Hd. subst d. by right.
  - by intros ?%elem_of_nil.
  - assert (Hlabel : class_of (S (S (S maxIndex))) = "unknown")
      by (by destruct maxIndex).
    rewrite Hlabel. by intros ?%elem_of_nil.
Qed.

Lemma detection_follows_output_index_witness :
  product coffee_detection = coffee /\ className coffee_detection = "caffee".
Proof.
  destruct (detection_follows_output_index playing
              [82 # 100; 10 # 100; 8 # 100]%Q coffee_detection)
    as [(_ & Hp & Hc)|(Hindex & _)].
  - vm_compute. apply list_elem_of_here.
  - by split.
  - discriminate Hindex.
Defined.

(** *** Instances of the poller's stopping lemmas *)

Lemma modelLoaded_stable_witness :
  modelLoaded
    (run [Start 7%nat (Some playing); Stop; LoadModel false; LoadRejected]
       ready) = true.
Proof. apply modelLoaded_stable. reflexivity. Defined.

Lemma effective_stop_silences_witness :
  let st := run [Start 7%nat (Some playing);
                 DetectionSettles 0 coffee_frame;
                 TimerFires 1 (Some playing)] ready in
  invocations
    (run [DetectionSettles 0 coffee_frame; TimerFires 2 (Some playing)]
       (stopContinuousDetection st))
  = invocations st.
Proof.
  intros st. apply effective_stop_silences; reflexivity.
Defined.

Lemma stop_between_cycles_is_final_witness :
  let st := run [Start 7%nat (Some playing);
                 DetectionSettles 0 coffee_frame] ready in
  isContinuousDetectionRunning (stopContinuousDetection st) = false
  /\ run [TimerFires 1 (Some playing); DetectionSettles 0 coffee_frame; Stop]
       (stopContinuousDetection st)
     = stopContinuousDetection st.
Proof.
  intros st. apply (stop_between_cycles_is_final _ st 1); try reflexivity.
  discriminate.
Defined.

End DetectionMore.

(* --------------------------------------------------------------------- *)
(** ** The page: statistics against cart and order files                  *)
(* --------------------------------------------------------------------- *)

Section AppAccounting.
Import Stats.



Lemma completeOrder_failure (e : Exporter.env) (a : App.state)
    (message : string) :
  Cart.items (App.cart a) <> [] ->
  Exporter.download_error e = Some message ->
  App.completeOrder true e a
  = Returns tt
      {| App.cart := App.cart a;
         App.stats := App.stats a;
         App.detection :=
           if App.continuousScanActive a
           then Detection.stopContinuousDetection (App.detection a)
           else App.detection a;
         App.files := App.files a;
         App.continuousScanActive := false;
         App.currentDetections := App.currentDetections a |}.
Proof.
  intros Hne Herr. destruct a as [cart stats det files scan cur].
  simpl in *. unfold App.completeOrder.
  erewrite bind_returns by reflexivity.
  cbn [App.cart App.continuousScanActive].
  assert (Hlen : (length (Cart.od_items (Cart.getOrderData cart)) =? 0)%nat
                 = false).
  { unfold Cart.getOrderData, Cart.getItems. simpl.
    destruct (Cart.items cart); [done|reflexivity]. }
  rewrite Hlen. cbn [negb].
  assert (Hstop :
    (if scan then App.stopContinuousScan else ret tt)
      {| App.cart := cart; App.stats := stats;
         App.detection := det; App.files := files;
         App.continuousScanActive := scan; App.currentDetections := cur |}
    = Returns tt
        {| App.cart := cart; App.stats := stats;
           App.detection :=
             if scan then Detection.stopContinuousDetection det else det;
           App.files := files;
           App.continuousScanActive := false; App.currentDetections := cur |}).
  { destruct scan; reflexivity. }
  erewrite bind_returns by exact Hstop.
  erewrite bind_returns;
    [|apply zoom_returns, (exportOrder_failure _ _ _ message), Herr].
  reflexivity.
Qed.

(** X22: when the download of the order file fails, completing the order
    changes neither the cart nor the statistics nor the files, and leaves
    the detection list as it was; the continuous scan has been stopped all
    the same. *)
Theorem failed_export_keeps_the_order (e : Exporter.env) (a : App.state)
    (message : string) :
  Cart.items (App.cart a) <> [] ->
  Exporter.download_error e = Some message ->
  exists a',
    App.completeOrder true e a = Returns tt a'
    /\ App.cart a' = App.cart a
    /\ App.stats a' = App.stats a
    /\ App.files a' = App.files a
    /\ App.currentDetections a' = App.currentDetections a
    /\ App.continuousScanActive a' = false
    /\ (App.continuousScanActive a = true ->
        App.detection a' = Detection.stopContinuousDetection (App.detection a)).
Proof.
  intros Hne Herr. eexists. split.
  - by apply (completeOrder_failure e a message).
  - simpl. split_and!; try done. by intros ->.
Qed.

Lemma failed_export_keeps_the_order_witness :
  let e := {| Exporter.date_now := "1700000000000";
              Exporter.random_suffix := "k3x9qa";
              Exporter.iso_now := "2023-11-14T22:13:20.000Z";
              Exporter.download_error := Some "QuotaExceededError" |} in
  let a := {| App.cart :=
                Cart.run [Cart.AddItem Detection.coffee None "t0"] Cart.initial;
              App.stats :=
                Stats.boot {| Stats.contents := ∅; Stats.readable := true;
                              Stats.writable := true |};
              App.detection := Detection.ready; App.files := [];
              App.continuousScanActive := true;
              App.currentDetections := [Detection.coffee_detection] |} in
  exists a',
    App.completeOrder true e a = Returns tt a'
    /\ App.cart a' = App.cart a
    /\ App.stats a' = App.stats a
    /\ App.files a' = App.files a
    /\ App.currentDetections a' = App.currentDetections a
    /\ App.continuousScanActive a' = false
    /\ (App.continuousScanActive a = true ->
        App.detection a' = Detection.stopContinuousDetection (App.detection a)).
Proof.
  intros e a.
  apply (failed_export_keeps_the_order e a "QuotaExceededError");
    [discriminate|reflexivity].
Defined.







End AppAccounting.

(* --------------------------------------------------------------------- *)
(** ** The camera                                                         *)
(* --------------------------------------------------------------------- *)

Section CameraFacts.
Import Camera.

Lemma handleCameraError_message (error : CameraError) :
  er_message (handleCameraError error) <> "".
Proof.
  unfold handleCameraError.
  repeat (destruct (String.eqb (err_name error) _); [done|]).
  done.
Qed.

(** X24: [handleCameraError] always reports an error with a message that
    is not empty; the type is "unknown" exactly for the names it does not
    know; and for a name it knows the result does not depend on the
    exception's own message. *)
Theorem handleCameraError_classifies (error : CameraError) :
  er_error (handleCameraError error) = true
  /\ er_message (handleCameraError error) <> ""
  /\ (er_type (handleCameraError error) = "unknown"
      <-> err_name error ∉ known_names)
  /\ (err_name error ∈ known_names ->
      forall message : string,
        handleCameraError {| err_name := err_name error;
                             err_message := message |}
        = handleCameraError error).
Proof.
  split; [|split; [apply handleCameraError_message|]].
  - unfold handleCameraError.
    repeat (destruct (String.eqb (err_name error) _); [done|]). done.
  - assert (Hknown : err_name error ∈ known_names
                     -> er_type (handleCameraError error) <> "unknown"
                        /\ forall message : string,
                             handleCameraError
                               {| err_name := err_name error;
                                  err_message := message |}
                             = handleCameraError error).
    { intros Hin. unfold known_names in Hin.
      repeat (apply elem_of_cons in Hin as [Heq|Hin];
              [unfold handleCameraError; simpl; rewrite Heq; by split|]).
      by apply elem_of_nil in Hin. }
    assert (Hunknown : err_name error ∉ known_names
                       -> er_type (handleCameraError error) = "unknown").
    { clear Hknown. intros Hnot. unfold known_names in Hnot.
      unfold handleCameraError.
      repeat match goal with
             | |- context [String.eqb (err_name error) ?name] =>
                 destruct (String.eqb_spec (err_name error) name) as [Heq|_];
                 [exfalso; apply Hnot; rewrite Heq; set_solver|]
             end.
      done. }
    split; [split|].
    + intros Hty Hin. by apply Hknown in Hin as [Hne _].
    + exact Hunknown.
    + intros Hin. by apply Hknown.
Qed.

Lemma handleCameraError_classifies_witness :
  let error := {| err_name := "NotFoundError";
                  err_message := "Requested device not found" |} in
  er_type (handleCameraError error) = "hardware"
  /\ forall message : string,
       handleCameraError {| err_name := "NotFoundError";
                            err_message := message |}
       = handleCameraError error.
Proof.
  intros error.
  destruct (handleCameraError_classifies error) as (_ & _ & _ & Hsame).
  split; [reflexivity|].
  apply Hsame. unfold known_names. simpl. do 2 constructor.
Defined.

Lemma shown_step (st : state) (e : event) :
  Forall (fun message => message <> "") (shown st) ->
  Forall (fun message => message <> "") (shown (step st e)).
Proof.
  intros H. destruct e as [|s|error| |error|]; simpl; try done.
  - unfold startCamera_granted. by destruct (requesting st).
  - unfold startCamera_denied. destruct (requesting st); [done|]. simpl.
    apply Forall_app. split; [done|].
    constructor; [apply handleCameraError_message|constructor].
  - unfold startCamera_played. by destruct (starting st).
  - unfold startCamera_play_failed. destruct (starting st); [done|]. simpl.
    apply Forall_app. split; [done|].
    constructor; [apply handleCameraError_message|constructor].
Qed.

Lemma active_step (st : state) (e : event) :
  (isActive st = true <-> is_Some (stream st)) ->
  (isActive (step st e) = true <-> is_Some (stream (step st e))).
Proof.
  intros H. destruct e as [|s|error| |error|]; simpl; try done.
  - unfold startCamera_granted. destruct (requesting st); [done|]. simpl.
    split; eauto.
  - unfold startCamera_denied. by destruct (requesting st).
  - unfold startCamera_played. by destruct (starting st).
  - unfold startCamera_play_failed. by destruct (starting st).
Qed.

Lemma stopped_step (st : state) (e : event) :
  length (stopped (step st e))
  = (length (stopped st)
     + match e, stream st with StopCamera, Some _ => 1 | _, _ => 0 end)%nat.
Proof.
  destruct e as [|s|error| |error|]; simpl; try lia.
  - unfold startCamera_granted. destruct (requesting st); simpl; lia.
  - unfold startCamera_denied. destruct (requesting st); simpl; lia.
  - unfold startCamera_played. destruct (starting st); simpl; lia.
  - unfold startCamera_play_failed. destruct (starting st); simpl; lia.
  - destruct (stream st); [rewrite length_app|]; simpl; lia.
Qed.

(** X25: whatever the user and the browser do, [isRunning()] answers true
    exactly when the module holds a stream, every error text shown is
    non-empty, and the streams whose tracks were stopped, together with
    the one still held, are never more than the streams granted. *)
Theorem camera_lifecycle (events : list event) :
  let st := run events initial in
  (isRunning st = true <-> is_Some (stream st))
  /\ Forall (fun message => message <> "") (shown st)
  /\ (length (stopped st) + (if isRunning st then 1 else 0)
      <= length (granted events initial))%nat.
Proof.
  assert (Hgen : forall st0,
    (isActive st0 = true <-> is_Some (stream st0)) ->
    Forall (fun message => message <> "") (shown st0) ->
    (isActive (run events st0) = true <-> is_Some (stream (run events st0)))
    /\ Forall (fun message => message <> "") (shown (run events st0))
    /\ (length (stopped (run events st0))
        + (if isActive (run events st0) then 1 else 0)
        <= length (stopped st0) + (if isActive st0 then 1 else 0)
           + length (granted events st0))%nat).
  { induction events as [|e events IH]; intros st0 Hact Hshown.
    - simpl. split; [done|]. split; [done|]. lia.
    - simpl.
      destruct (IH (step st0 e) (active_step st0 e Hact)
                  (shown_step st0 e Hshown)) as (H1 & H2 & H3).
      split; [done|]. split; [done|].
      etransitivity; [exact H3|].
      pose proof (stopped_step st0 e) as Hstop.
      destruct e as [|s|error| |error|]; simpl in *.
      + lia.
      + unfold startCamera_granted in *.
        destruct (requesting st0); simpl in *; [lia|].
        destruct (isActive st0); lia.
      + unfold startCamera_denied in *.
        destruct (requesting st0); simpl in *; lia.
      + unfold startCamera_played in *.
        destruct (starting st0); simpl in *; lia.
      + unfold startCamera_play_failed in *.
        destruct (starting st0); simpl in *; lia.
      + destruct (stream st0) as [s|] eqn:Hs.
        * assert (isActive st0 = true) as -> by (apply Hact; eauto). lia.
        * destruct (isActive st0); lia. }
  intros st. unfold isRunning.
  destruct (Hgen initial) as (H1 & H2 & H3); simpl.
  - split; [done|]. by intros [? ?].
  - constructor.
  - split; [done|]. split; [done|]. simpl in H3. exact H3.
Qed.

End CameraFacts.
